(** * RegexpHandler: ordered, first-match-wins dispatch on regular expressions

    A shallow embedding of [handler.go] (package [handler]) together with a
    model of the part of Go's [regexp] package that the handler calls:
    [regexp.MustCompile] and the method [FindStringSubmatch] of a compiled
    expression.

    Layout:
    - [Go]        : panics, nil-able slices and re-slicing;
    - [syntax]    : the regular expression syntax tree and its parser
                    (after [regexp/syntax], Perl flags);
    - [regexp]    : compilation and leftmost-first matching with captures;
    - [http]      : the request abstraction the handler reads;
    - [handler]   : [route], [RegexpHandler], [NewRegexpHandler], [Add] and
                    [ServeHTTP], translated from the source;
    - the theorems about registration and dispatch.

    A route's function is opaque to the dispatcher, so [ServeHTTP] yields
    the calls it makes instead of running them; a panic raised inside a
    route's function is that function's own and is not modelled.

    Modelling notes for the [regexp] library.  Text is a sequence of 8-bit
    characters and one character is one rune, which is exact on ASCII text.
    The parser covers literals, [.], bracket classes with ranges and negation,
    the Perl classes [\d \D \s \S \w \W], escaped punctuation and the control
    escapes, [^ $ \A \z], capturing and non-capturing groups, alternation and
    the greedy and lazy forms of [* + ?].  Counted repetition, flags, named
    groups, word boundaries, [\Q..\E], numeric escapes and named classes are
    outside the fragment and are reported as [ErrNotModelled]. *)

From Stdlib Require Import String Ascii List Arith Bool Lia.
Import ListNotations.

Set Implicit Arguments.

Local Open Scope string_scope.
Local Open Scope list_scope.
Local Open Scope nat_scope.

(* ================================================================== *)
(** ** Go runtime notions used by the handler *)

Module Go.

(** How a call ends: it returns a value, or it panics. *)
Inductive outcome (A : Type) : Type :=
| Returned (a : A)
| Panicked (msg : string).
Arguments Returned {A} a.
Arguments Panicked {A} msg.

(** A slice value is either [nil] or a (possibly empty) sequence. *)
Inductive slice (A : Type) : Type :=
| nil_slice
| mk_slice (elems : list A).
Arguments nil_slice {A}.
Arguments mk_slice {A} elems.

Definition len {A} (s : slice A) : nat :=
  match s with
  | nil_slice => 0
  | mk_slice l => length l
  end.

Definition is_nil {A} (s : slice A) : bool :=
  match s with
  | nil_slice => true
  | mk_slice _ => false
  end.

(** [s[lo:]]: a run-time panic when [lo] exceeds the length; re-slicing
    a non-nil slice never yields [nil]. *)
Definition slice_from {A} (lo : nat) (s : slice A) : outcome (slice A) :=
  if lo <=? len s then
    Returned (match s with
              | nil_slice => nil_slice
              | mk_slice l => mk_slice (skipn lo l)
              end)
  else Panicked "runtime error: slice bounds out of range".

(** [append(s, x)] *)
Definition append {A} (s : slice A) (x : A) : slice A :=
  match s with
  | nil_slice => mk_slice [x]
  | mk_slice l => mk_slice (l ++ [x])
  end.

(** The elements a [for ... range] loop visits. *)
Definition elements {A} (s : slice A) : list A :=
  match s with
  | nil_slice => []
  | mk_slice l => l
  end.

End Go.

(* ================================================================== *)
(** ** Regular expression syntax (after [regexp/syntax]) *)

Module syntax.

(** Character sets, kept as the expression that denotes them. *)
Inductive cclass : Type :=
| CNone
| CRange (lo hi : ascii)
| CUnion (a b : cclass)
| CNeg (a : cclass).

Definition code (c : ascii) : nat := nat_of_ascii c.

Fixpoint in_class (x : ascii) (cl : cclass) : bool :=
  match cl with
  | CNone => false
  | CRange lo hi => (code lo <=? code x) && (code x <=? code hi)
  | CUnion a b => in_class x a || in_class x b
  | CNeg a => negb (in_class x a)
  end.

Definition CChar (c : ascii) : cclass := CRange c c.

Definition perl_d : cclass := CRange "0" "9".
Definition perl_w : cclass :=
  CUnion (CRange "0" "9")
    (CUnion (CRange "A" "Z") (CUnion (CRange "a" "z") (CChar "_"))).
Definition perl_s : cclass :=
  CUnion (CChar "009")
    (CUnion (CChar "010") (CUnion (CChar "012") (CUnion (CChar "013") (CChar " ")))).

(** The operators of a parsed expression.  The [greedy] flag of a
    repetition is [false] for the lazy forms [*? +? ??]. *)
Inductive Regexp : Type :=
| OpEmptyMatch
| OpLiteral (c : ascii)
| OpCharClass (cl : cclass)
| OpAnyCharNotNL
| OpBeginText
| OpEndText
| OpCapture (cap : nat) (sub : Regexp)
| OpStar (greedy : bool) (sub : Regexp)
| OpPlus (greedy : bool) (sub : Regexp)
| OpQuest (greedy : bool) (sub : Regexp)
| OpConcat (a b : Regexp)
| OpAlternate (a b : Regexp).

Inductive ErrorCode : Type :=
| ErrInvalidCharRange
| ErrInvalidEscape
| ErrInvalidRepeatOp
| ErrMissingBracket
| ErrMissingParen
| ErrMissingRepeatArgument
| ErrTrailingBackslash
| ErrUnexpectedParen
| ErrNotModelled.

(** [MaxCap]: the largest capture index in the expression. *)
Fixpoint MaxCap (re : Regexp) : nat :=
  match re with
  | OpCapture cap sub => Nat.max cap (MaxCap sub)
  | OpStar _ sub | OpPlus _ sub | OpQuest _ sub => MaxCap sub
  | OpConcat a b | OpAlternate a b => Nat.max (MaxCap a) (MaxCap b)
  | _ => 0
  end.

(** The capture indices of the groups, in the order in which their
    opening parentheses appear in the pattern (a pre-order walk: the
    source text of [a] precedes that of [b] in [OpConcat a b] and in
    [OpAlternate a b], and a group opens before its body). *)
Fixpoint groups (re : Regexp) : list nat :=
  match re with
  | OpCapture cap sub => cap :: groups sub
  | OpStar _ sub | OpPlus _ sub | OpQuest _ sub => groups sub
  | OpConcat a b | OpAlternate a b => groups a ++ groups b
  | _ => []
  end.

(** *** Stage 1: pairing each backslash with the character it escapes *)

Inductive sym : Type :=
| Raw (c : ascii)
| Esc (c : ascii).

Definition isc (c d : ascii) : bool := Ascii.eqb c d.

Fixpoint unescape (t : list ascii) : ErrorCode + list sym :=
  match t with
  | [] => inr []
  | c :: t1 =>
      if isc c "\" then
        match t1 with
        | [] => inl ErrTrailingBackslash
        | e :: t2 =>
            match unescape t2 with
            | inl err => inl err
            | inr ss => inr (Esc e :: ss)
            end
        end
      else
        match unescape t1 with
        | inl err => inl err
        | inr ss => inr (Raw c :: ss)
        end
  end.

(** *** Stage 2: tokens *)

Inductive repop : Type := RStar | RPlus | RQuest.

(** The operands that are a single token. *)
Inductive atom : Type :=
| Lit (c : ascii)
| Class (cl : cclass)
| AnyNotNL
| BeginText
| EndText.

Definition leaf (a : atom) : Regexp :=
  match a with
  | Lit c => OpLiteral c
  | Class cl => OpCharClass cl
  | AnyNotNL => OpAnyCharNotNL
  | BeginText => OpBeginText
  | EndText => OpEndText
  end.

Inductive token : Type :=
| TAtom (a : atom)
| TRepeat (op : repop) (greedy : bool)
| TBar
| TOpen (capturing : bool)
| TClose.

Definition is_digit (c : ascii) : bool :=
  (code "0" <=? code c) && (code c <=? code "9").
Definition is_alpha (c : ascii) : bool :=
  ((code "A" <=? code c) && (code c <=? code "Z"))
  || ((code "a" <=? code c) && (code c <=? code "z")).
Definition is_alnum (c : ascii) : bool := is_digit c || is_alpha c.

(** [parseEscape] on the character after the backslash: the character
    denoted, when the escape denotes one. *)
Definition escape_char (e : ascii) : ErrorCode + ascii :=
  if negb (is_alnum e) && (code e <? 128) then inr e
  else if isc e "a" then inr "007"%char
  else if isc e "f" then inr "012"%char
  else if isc e "n" then inr "010"%char
  else if isc e "r" then inr "013"%char
  else if isc e "t" then inr "009"%char
  else if isc e "v" then inr "011"%char
  else if is_digit e || isc e "x" then inl ErrNotModelled
  else inl ErrInvalidEscape.

(** The Perl classes [\d \s \w] and their negations. *)
Definition perl_class (e : ascii) : option cclass :=
  if isc e "d" then Some perl_d
  else if isc e "D" then Some (CNeg perl_d)
  else if isc e "s" then Some perl_s
  else if isc e "S" then Some (CNeg perl_s)
  else if isc e "w" then Some perl_w
  else if isc e "W" then Some (CNeg perl_w)
  else None.

(** A single character inside brackets ([parseClassChar]). *)
Definition class_char (s : sym) : ErrorCode + ascii :=
  match s with
  | Raw c => inr c
  | Esc e => if isc e "p" || isc e "P" then inl ErrNotModelled else escape_char e
  end.

(** An escape outside brackets. *)
Definition escape_token (e : ascii) : ErrorCode + token :=
  if isc e "A" then inr (TAtom BeginText)
  else if isc e "z" then inr (TAtom EndText)
  else if isc e "b" || isc e "B" || isc e "Q" || isc e "E" || isc e "p" || isc e "P"
  then inl ErrNotModelled
  else match perl_class e with
       | Some cl => inr (TAtom (Class cl))
       | None =>
           match escape_char e with
           | inl err => inl err
           | inr c => inr (TAtom (Lit c))
           end
       end.

Definition emit (tk : token) (rest : ErrorCode + list token)
  : ErrorCode + list token :=
  match rest with
  | inl err => inl err
  | inr tks => inr (tk :: tks)
  end.

(** Lexer state: outside brackets, or inside with the set read so far. *)
Inductive mode : Type :=
| Outside
| InClass (negated : bool) (first : bool) (acc : cclass).

Definition close_class (negated : bool) (acc : cclass) : token :=
  TAtom (Class (if negated then CNeg acc else acc)).

Fixpoint lex (m : mode) (t : list sym) {struct t} : ErrorCode + list token :=
  match m with
  | Outside =>
      match t with
      | [] => inr []
      | Esc e :: t1 =>
          match escape_token e with
          | inl err => inl err
          | inr tk => emit tk (lex Outside t1)
          end
      | Raw c :: t1 =>
          if isc c "(" then
            match t1 with
            | Raw q :: t2 =>
                if isc q "?" then
                  match t2 with
                  | Raw k :: t3 =>
                      if isc k ":" then emit (TOpen false) (lex Outside t3)
                      else inl ErrNotModelled
                  | _ => inl ErrMissingParen
                  end
                else emit (TOpen true) (lex Outside t1)
            | _ => emit (TOpen true) (lex Outside t1)
            end
          else if isc c ")" then emit TClose (lex Outside t1)
          else if isc c "|" then emit TBar (lex Outside t1)
          else if isc c "*" || isc c "+" || isc c "?" then
            let op := if isc c "*" then RStar else if isc c "+" then RPlus else RQuest in
            match t1 with
            | Raw q :: t2 =>
                if isc q "?" then emit (TRepeat op false) (lex Outside t2)
                else emit (TRepeat op true) (lex Outside t1)
            | _ => emit (TRepeat op true) (lex Outside t1)
            end
          else if isc c "{" then
            match t1 with
            | Raw d :: _ =>
                if is_digit d then inl ErrNotModelled
                else emit (TAtom (Lit c)) (lex Outside t1)
            | _ => emit (TAtom (Lit c)) (lex Outside t1)
            end
          else if isc c "[" then
            match t1 with
            | Raw n :: t2 =>
                if isc n "^" then lex (InClass true true CNone) t2
                else lex (InClass false true CNone) t1
            | _ => lex (InClass false true CNone) t1
            end
          else if isc c "^" then emit (TAtom BeginText) (lex Outside t1)
          else if isc c "$" then emit (TAtom EndText) (lex Outside t1)
          else if isc c "." then emit (TAtom AnyNotNL) (lex Outside t1)
          else emit (TAtom (Lit c)) (lex Outside t1)
      end
  | InClass negated first acc =>
      match t with
      | [] => inl ErrMissingBracket
      | s1 :: t1 =>
          let closes := match s1 with Raw c => isc c "]" && negb first | Esc _ => false end in
          let posix := match s1, t1 with
                       | Raw c, Raw d :: _ => isc c "[" && isc d ":"
                       | _, _ => false
                       end in
          let perl := match s1 with Esc e => perl_class e | Raw _ => None end in
          if closes then emit (close_class negated acc) (lex Outside t1)
          else if posix then inl ErrNotModelled
          else
            match perl with
            | Some cl => lex (InClass negated false (CUnion acc cl)) t1
            | None =>
                match class_char s1 with
                | inl err => inl err
                | inr lo =>
                    let single := lex (InClass negated false (CUnion acc (CChar lo))) t1 in
                    match t1 with
                    | Raw dash :: s3 :: t3 =>
                        let to_bracket := match s3 with Raw c => isc c "]" | Esc _ => false end in
                        if isc dash "-" && negb to_bracket then
                          match class_char s3 with
                          | inl err => inl err
                          | inr hi =>
                              if code hi <? code lo then inl ErrInvalidCharRange
                              else lex (InClass negated false (CUnion acc (CRange lo hi))) t3
                          end
                        else single
                    | _ => single
                    end
                end
            end
      end
  end.

(** *** Stage 3: the operator stack of [parse.go] *)

Inductive item : Type :=
| INode (re : Regexp)
| ILeftParen (cap : option nat)     (* [None] for a non-capturing group *)
| IVerticalBar.

(** [concat]: the operands above the topmost marker become one
    expression, in source order; none at all is the empty match. *)
Fixpoint concat_above (st : list item) (acc : option Regexp)
  : Regexp * list item :=
  match st with
  | INode re :: st' =>
      concat_above st'
        (Some (match acc with None => re | Some a => OpConcat re a end))
  | _ => (match acc with None => OpEmptyMatch | Some a => a end, st)
  end.

(** [alternate]: the branches separated by vertical bars below [re],
    earliest branch first. *)
Fixpoint alternate (re : Regexp) (st : list item) : Regexp * list item :=
  match st with
  | IVerticalBar :: INode a :: st' => alternate (OpAlternate a re) st'
  | _ => (re, st)
  end.

Definition collapse (st : list item) : Regexp * list item :=
  let (c, st1) := concat_above st None in alternate c st1.

Definition repetition (op : repop) (greedy : bool) (sub : Regexp) : Regexp :=
  match op with
  | RStar => OpStar greedy sub
  | RPlus => OpPlus greedy sub
  | RQuest => OpQuest greedy sub
  end.

(** The main loop.  [ncap] counts the capturing parentheses opened so
    far ([p.numCap]); [lastRepeat] records that the previous token was a
    repetition operator. *)
Fixpoint parse_tokens (ts : list token) (st : list item) (ncap : nat)
  (lastRepeat : bool) {struct ts} : ErrorCode + Regexp :=
  match ts with
  | [] =>
      let (re, st') := collapse st in
      match st' with
      | [] => inr re
      | _ => inl ErrMissingParen
      end
  | TAtom a :: ts' => parse_tokens ts' (INode (leaf a) :: st) ncap false
  | TRepeat op greedy :: ts' =>
      if lastRepeat then inl ErrInvalidRepeatOp
      else
        match st with
        | INode sub :: st' =>
            parse_tokens ts' (INode (repetition op greedy sub) :: st') ncap true
        | _ => inl ErrMissingRepeatArgument
        end
  | TBar :: ts' =>
      let (c, st') := concat_above st None in
      parse_tokens ts' (IVerticalBar :: INode c :: st') ncap false
  | TOpen true :: ts' =>
      parse_tokens ts' (ILeftParen (Some (S ncap)) :: st) (S ncap) false
  | TOpen false :: ts' =>
      parse_tokens ts' (ILeftParen None :: st) ncap false
  | TClose :: ts' =>
      let (re, st') := collapse st in
      match st' with
      | ILeftParen cap :: st'' =>
          let group := match cap with
                       | Some i => OpCapture i re
                       | None => re
                       end in
          parse_tokens ts' (INode group :: st'') ncap false
      | _ => inl ErrUnexpectedParen
      end
  end.

(** [Parse(s, Perl)] *)
Definition Parse (s : string) : ErrorCode + Regexp :=
  match unescape (list_ascii_of_string s) with
  | inl err => inl err
  | inr ss =>
      match lex Outside ss with
      | inl err => inl err
      | inr ts => parse_tokens ts [] 0 false
      end
  end.

(** The groups opened so far, read from the bottom of the stack up. *)
Definition item_groups (it : item) : list nat :=
  match it with
  | INode re => groups re
  | ILeftParen (Some i) => [i]
  | ILeftParen None => []
  | IVerticalBar => []
  end.

Fixpoint stack_groups (st : list item) : list nat :=
  match st with
  | [] => []
  | it :: st' => stack_groups st' ++ item_groups it
  end.

Definition acc_groups (acc : option Regexp) : list nat :=
  match acc with
  | None => []
  | Some a => groups a
  end.

Definition ErrorCode_String (e : ErrorCode) : string :=
  match e with
  | ErrInvalidCharRange => "invalid character class range"
  | ErrInvalidEscape => "invalid escape sequence"
  | ErrInvalidRepeatOp => "invalid nested repetition operator"
  | ErrMissingBracket => "missing closing ]"
  | ErrMissingParen => "missing closing )"
  | ErrMissingRepeatArgument => "missing argument to repetition operator"
  | ErrTrailingBackslash => "trailing backslash at end of expression"
  | ErrUnexpectedParen => "unexpected )"
  | ErrNotModelled => "construct outside the modelled fragment"
  end.

End syntax.

(* ================================================================== *)
(** ** Compiled expressions and matching (after [regexp]) *)

Module regexp.

Import Go.

(** A compiled expression: its source text, its program (here the
    syntax tree itself) and the number of parenthesised groups. *)
Record Regexp : Type := {
  expr : string;
  prog : syntax.Regexp;
  numSubexp : nat
}.

Definition Compile (str : string) : syntax.ErrorCode + Regexp :=
  match syntax.Parse str with
  | inl err => inl err
  | inr re => inr {| expr := str; prog := re; numSubexp := syntax.MaxCap re |}
  end.

(** [MustCompile] is [Compile] that panics when the text does not parse. *)
Definition MustCompile (str : string) : outcome Regexp :=
  match Compile str with
  | inr re => Returned re
  | inl err =>
      Panicked ("regexp: Compile(`" ++ str ++ "`): error parsing regexp: "
                ++ syntax.ErrorCode_String err)
  end.

(** *** The matcher

    A depth-first walk of the expression in priority order, which gives
    the leftmost-first match: the first alternative before the second,
    one more round before leaving a greedy loop and the reverse for a
    lazy one.  As in the library's backtracker and its simulation of
    the automaton, a program point is explored at most once at each
    position of the text: coming back to a point already [visited]
    fails at once.  This is what ends a round of a repetition that
    consumed nothing, and it decides the captures of such expressions.
    A starred expression is entered as the library compiles it since
    Go 1.17, [x*] as [(x+)?]: an optional first round, then the loop.

    Positions are counted from the start of the text; [rest] is the text
    from [pos] on. *)

(** Capture registers: for each group the span of its last match. *)
Definition caps : Type := list (option (nat * nat)).

Fixpoint set_cap (i : nat) (span : nat * nat) (c : caps) : caps :=
  match c, i with
  | [], _ => []
  | _ :: c', 0 => Some span :: c'
  | x :: c', S i' => x :: set_cap i' span c'
  end.

(** A program point: a node of the tree, numbered in pre-order, at its
    entry ([false]) or at its second instruction ([true]: the end of a
    group, the branch that closes a loop). *)
Definition point : Type := nat * bool.

Definition visited : Type := list (point * nat).

Definition seen (pt : point) (pos : nat) (v : visited) : bool :=
  existsb (fun e => (fst (fst e) =? fst pt) && Bool.eqb (snd (fst e)) (snd pt)
                    && (snd e =? pos)) v.

Definition result : Type := option caps * visited.

Definition cont : Type := nat -> list ascii -> caps -> visited -> result.

Definition fail (v : visited) : result := (None, v).

(** [shouldVisit] *)
Definition visit (pt : point) (pos : nat) (v : visited)
  (go : visited -> result) : result :=
  if seen pt pos v then fail v else go ((pt, pos) :: v).

(** Try [a]; if it finds no match try [b], keeping what [a] visited. *)
Definition orelse (a b : visited -> result) (v : visited) : result :=
  match a v with
  | (Some c, v') => (Some c, v')
  | (None, v') => b v'
  end.

Definition prefer (greedy : bool) (more out : visited -> result)
  : visited -> result :=
  if greedy then orelse more out else orelse out more.

Fixpoint size (re : syntax.Regexp) : nat :=
  match re with
  | syntax.OpCapture _ sub | syntax.OpStar _ sub
  | syntax.OpPlus _ sub | syntax.OpQuest _ sub => S (size sub)
  | syntax.OpConcat a b | syntax.OpAlternate a b => S (size a + size b)
  | _ => 1
  end.

(** The branch at the end of a repeated body, at point [lp]: one more
    round, or out.  A further round only starts from a later position, so
    at most [length rest] rounds follow; [fuel] is that bound. *)
Fixpoint loop (step : nat -> list ascii -> caps -> cont -> visited -> result)
  (lp : point) (greedy : bool) (fuel : nat) (k : cont)
  (pos : nat) (rest : list ascii) (c : caps) (v : visited)
  {struct fuel} : result :=
  visit lp pos v
    (prefer greedy
       (step pos rest c
          (fun pos' rest' c' v' =>
             match fuel with
             | 0 => fail v'
             | S fuel' =>
                 if length rest' <? length rest
                 then loop step lp greedy fuel' k pos' rest' c' v'
                 else fail v'
             end))
       (k pos rest c)).

Fixpoint run (re : syntax.Regexp) (id : nat) (pos : nat) (rest : list ascii)
  (c : caps) (k : cont) (v : visited) {struct re} : result :=
  visit (id, false) pos v
    match re with
    | syntax.OpEmptyMatch => k pos rest c
    | syntax.OpLiteral x =>
        match rest with
        | y :: rest' => if Ascii.eqb x y then k (S pos) rest' c else fail
        | [] => fail
        end
    | syntax.OpCharClass cl =>
        match rest with
        | y :: rest' => if syntax.in_class y cl then k (S pos) rest' c else fail
        | [] => fail
        end
    | syntax.OpAnyCharNotNL =>
        match rest with
        | y :: rest' => if Ascii.eqb y "010" then fail else k (S pos) rest' c
        | [] => fail
        end
    | syntax.OpBeginText => if pos =? 0 then k pos rest c else fail
    | syntax.OpEndText =>
        match rest with
        | [] => k pos rest c
        | _ :: _ => fail
        end
    | syntax.OpCapture i sub =>
        run sub (S id) pos rest c
          (fun pos' rest' c' v' =>
             visit (id, true) pos' v' (k pos' rest' (set_cap i (pos, pos') c')))
    | syntax.OpConcat a b =>
        run a (S id) pos rest c
          (fun pos' rest' c' => run b (S id + size a) pos' rest' c' k)
    | syntax.OpAlternate a b =>
        orelse (run a (S id) pos rest c k)
               (run b (S id + size a) pos rest c k)
    | syntax.OpQuest greedy sub =>
        prefer greedy (run sub (S id) pos rest c k) (k pos rest c)
    | syntax.OpPlus greedy sub =>
        run sub (S id) pos rest c
          (fun pos' rest' =>
             loop (run sub (S id)) (id, true) greedy (length rest') k pos' rest')
    | syntax.OpStar greedy sub =>
        prefer greedy
          (run sub (S id) pos rest c
             (fun pos' rest' =>
                loop (run sub (S id)) (id, true) greedy (length rest') k pos' rest'))
          (k pos rest c)
    end.

(** Two continuations that answer alike, and a step that cannot tell
    such continuations apart. *)
Definition cont_eq (k1 k2 : cont) : Prop :=
  forall pos rest c v, k1 pos rest c v = k2 pos rest c v.

Definition extensional
  (step : nat -> list ascii -> caps -> cont -> visited -> result) : Prop :=
  forall pos rest c k1 k2 v,
    cont_eq k1 k2 -> step pos rest c k1 v = step pos rest c k2 v.

(** The unanchored search: the match that starts leftmost wins.  What
    was visited from an earlier start stays visited. *)
Fixpoint search (re : syntax.Regexp) (ncap : nat) (pos : nat)
  (rest : list ascii) (v : visited) {struct rest} : option caps :=
  match run re 0 pos rest (repeat None ncap)
          (fun pos' _ c v' => (Some (set_cap 0 (pos, pos') c), v')) v with
  | (Some c, _) => Some c
  | (None, v') =>
      match rest with
      | [] => None
      | _ :: rest' => search re ncap (S pos) rest' v'
      end
  end.

(** [doExecute]: the capture registers of the match, if there is one. *)
Definition doExecute (re : Regexp) (s : string) : option caps :=
  search (prog re) (1 + numSubexp re) 0 (list_ascii_of_string s) [].

(** [s[a[2*i]:a[2*i+1]]] when register [i] is set, else the zero value. *)
Definition group_text (a : caps) (s : string) (i : nat) : string :=
  match nth i a None with
  | Some (lo, hi) => substring lo (hi - lo) s
  | None => ""
  end.

(** The texts of groups [1..numSubexp] in a match of [s], in that order. *)
Definition submatches (re : Regexp) (a : caps) (s : string) : list string :=
  map (group_text a s) (seq 1 (numSubexp re)).

(** The expression as one unit pinned at both ends, [^(?:e)$]: it matches
    when [e] matches the text from its first character to its last. *)
Definition whole_string_match (expression s : string) : bool :=
  match syntax.Parse expression with
  | inr re =>
      match search (syntax.OpConcat syntax.OpBeginText
                      (syntax.OpConcat re syntax.OpEndText))
              1 0 (list_ascii_of_string s) [] with
      | Some _ => true
      | None => false
      end
  | inl _ => false
  end.

(** [FindStringSubmatch]: [nil] when there is no match; otherwise a
    slice of [1 + numSubexp] strings, the text of the whole match and of
    each group, with the zero value (the empty string) for a group that
    took no part in the match. *)
Definition FindStringSubmatch (re : Regexp) (s : string) : slice string :=
  match doExecute re s with
  | None => nil_slice
  | Some a => mk_slice (map (group_text a s) (seq 0 (1 + numSubexp re)))
  end.

End regexp.

(* ================================================================== *)
(** ** The request (after [net/url] and [net/http]) *)

Module url.

Record URL : Type := { Path : string }.

End url.

Module http.

(** The dispatcher reads nothing of a request but [r.URL.Path]. *)
Record Request : Type := { URL : url.URL }.

End http.

(* ================================================================== *)
(** ** Package [handler] *)

Module handler.

Import Go.

Section Handler.

(** [http.ResponseWriter] is an interface value the dispatcher only
    hands on.  A route's function is an opaque value of type
    [func(http.ResponseWriter, *http.Request, []string)]: what it does
    when called is its own business, so a call is recorded as an event. *)
Variable ResponseWriter : Type.
Variable Func : Type.

Record route : Type := {
  re : regexp.Regexp;
  f : Func
}.

(** [RegexpHandler] is an object that implements the [http.Handler]
    interface. *)
Record RegexpHandler : Type := {
  routes : slice route
}.

(** One call [function(w, r, args)] made by the dispatcher. *)
Record Call : Type := {
  callee : Func;
  arg_w : ResponseWriter;
  arg_r : http.Request;
  arg_matches : slice string
}.

(** [NewRegexpHandler] creates a new [RegexpHandler]. *)
Definition NewRegexpHandler : RegexpHandler := {| routes := nil_slice |}.

(** [Add] registers a new regular expression and function pair, or
    route.  The receiver is passed in and out; a panic in
    [MustCompile] leaves it as it was. *)
Definition Add (expression : string) (function : Func) (h : RegexpHandler)
  : outcome unit * RegexpHandler :=
  match regexp.MustCompile ("^" ++ expression ++ "$") with
  | Panicked msg => (Panicked msg, h)
  | Returned re0 =>
      (Returned tt,
       {| routes := append (routes h) {| re := re0; f := function |} |})
  end.

(** The body of the [for ... range h.routes] loop of [ServeHTTP], over
    the routes still to try: the outcome and the calls made. *)
Fixpoint serve (w : ResponseWriter) (r : http.Request) (rs : list route)
  : outcome unit * list Call :=
  match rs with
  | [] => (Returned tt, [])
  | rt :: rs' =>
      let matches := regexp.FindStringSubmatch (re rt) (url.Path (http.URL r)) in
      if negb (is_nil matches) then
        match slice_from 1 matches with
        | Returned args =>
            (* route.f(w, r, matches[1:]); break *)
            (Returned tt,
             [{| callee := f rt; arg_w := w; arg_r := r; arg_matches := args |}])
        | Panicked msg => (Panicked msg, [])
        end
      else serve w r rs'
  end.

(** [ServeHTTP] serves a request by calling the function of the first
    registered route containing an expression the request's path
    matches.  It yields the outcome, the receiver afterwards and the
    calls made to route functions. *)
Definition ServeHTTP (w : ResponseWriter) (r : http.Request) (h : RegexpHandler)
  : outcome unit * RegexpHandler * list Call :=
  let (out, calls) := serve w r (elements (routes h)) in
  (out, h, calls).

(** A start-up sequence: [Add] called on each pair in turn, stopping at
    the first panic. *)
Fixpoint AddAll (regs : list (string * Func)) (h : RegexpHandler)
  : outcome unit * RegexpHandler :=
  match regs with
  | [] => (Returned tt, h)
  | (expression, function) :: regs' =>
      match Add expression function h with
      | (Returned _, h') => AddAll regs' h'
      | (Panicked msg, h') => (Panicked msg, h')
      end
  end.

(** The route table as a sequence. *)
Definition table (h : RegexpHandler) : list route := elements (routes h).

(** The test [ServeHTTP] makes of a route against a path. *)
Definition route_matches (rt : route) (path : string) : bool :=
  negb (is_nil (regexp.FindStringSubmatch (re rt) path)).

(** A registered pattern matches a path when the route that [Add]
    builds from it does. *)
Definition pattern_matches (expression path : string) : bool :=
  match regexp.MustCompile ("^" ++ expression ++ "$") with
  | Returned re0 => negb (is_nil (regexp.FindStringSubmatch re0 path))
  | Panicked _ => false
  end.

(** The first route of the table whose expression matches the path. *)
Definition selected (h : RegexpHandler) (path : string) : option route :=
  find (fun rt => route_matches rt path) (table h).

(** The call [ServeHTTP] makes to a route's function. *)
Definition call_of (w : ResponseWriter) (r : http.Request) (rt : route)
  (args : list string) : Call :=
  {| callee := f rt; arg_w := w; arg_r := r; arg_matches := mk_slice args |}.

(** A history of uses of one handler: registrations and requests in
    any order, stopping at the first panic. *)
Inductive operation : Type :=
| DoAdd (expression : string) (function : Func)
| DoServe (w : ResponseWriter) (r : http.Request).

Fixpoint perform (ops : list operation) (h : RegexpHandler)
  : outcome unit * RegexpHandler :=
  match ops with
  | [] => (Returned tt, h)
  | DoAdd expression function :: ops' =>
      match Add expression function h with
      | (Returned _, h') => perform ops' h'
      | (Panicked msg, h') => (Panicked msg, h')
      end
  | DoServe w r :: ops' =>
      match ServeHTTP w r h with
      | (Returned _, h', _) => perform ops' h'
      | (Panicked msg, h', _) => (Panicked msg, h')
      end
  end.

(** The registrations of a history, in the order they were made. *)
Fixpoint registrations (ops : list operation) : list (string * Func) :=
  match ops with
  | [] => []
  | DoAdd expression function :: ops' =>
      (expression, function) :: registrations ops'
  | DoServe _ _ :: ops' => registrations ops'
  end.

(** A route is the one [Add] builds from a registration. *)
Definition built_from (rt : route) (reg : string * Func) : Prop :=
  regexp.MustCompile ("^" ++ fst reg ++ "$") = Returned (re rt)
  /\ f rt = snd reg.

End Handler.

Arguments NewRegexpHandler {Func}.
Arguments serve {ResponseWriter Func} w r rs.
Arguments ServeHTTP {ResponseWriter Func} w r h.
Arguments DoAdd {ResponseWriter Func} expression function.
Arguments DoServe {ResponseWriter Func} w r.

End handler.

(* ================================================================== *)
(** ** Small tables and requests used to exercise the statements *)

Module examples.

Import Go handler.

Definition request (p : string) : http.Request :=
  {| http.URL := {| url.Path := p |} |}.

(** Route functions are told apart by a name; the response writer carries
    nothing. *)
Definition registered (regs : list (string * string)) : RegexpHandler string :=
  snd (AddAll regs NewRegexpHandler).

Definition three_routes : list (string * string) :=
  [("/b", "serveB"); ("/a", "serveA"); ("/(a)", "serveGroup")].

Definition user_routes : list (string * string) :=
  [("/user/([0-9]+)/(posts|likes)", "serveUser")].

Definition star_routes : list (string * string) := [("a*", "serveStar")].

Definition optional_routes : list (string * string) := [("(a)?b", "serveB")].

(** The route [Add] builds from a registration that compiles. *)
Definition compiled_route (expression function : string) : route string :=
  match regexp.MustCompile ("^" ++ expression ++ "$") with
  | Returned re0 => {| re := re0; f := function |}
  | Panicked _ =>
      {| re := {| regexp.expr := ""; regexp.prog := syntax.OpEmptyMatch;
                  regexp.numSubexp := 0 |};
         f := function |}
  end.

(** A history that registers the same pair twice around a request. *)
Definition twice : list (operation unit string) :=
  [DoAdd "/a" "serveA"; DoServe tt (request "/a"); DoAdd "/a" "serveA"].

End examples.

(* ================================================================== *)
(** ** Notions used to state further properties *)

Module derived.

Import Go handler.

Section Calls.

Variable ResponseWriter : Type.
Variable Func : Type.

(** The calls of a dispatch, read off the selected route. *)
Definition calls_for (w : ResponseWriter) (r : http.Request)
  (sel : option (route Func)) : list (Call ResponseWriter Func) :=
  match sel with
  | Some rt =>
      match regexp.doExecute (re rt) (url.Path (http.URL r)) with
      | Some a =>
          [call_of w r rt (regexp.submatches (re rt) a (url.Path (http.URL r)))]
      | None => []
      end
  | None => []
  end.

End Calls.

(** *** Patterns without operators

    A pattern none of whose characters is an operator of the syntax is a
    sequence of one-character atoms: each character stands for itself,
    except the dot, which stands for any character but the newline. *)

Definition operator (c : ascii) : bool :=
  syntax.isc c "\" || syntax.isc c "(" || syntax.isc c ")"
  || syntax.isc c "|" || syntax.isc c "*" || syntax.isc c "+"
  || syntax.isc c "?" || syntax.isc c "{" || syntax.isc c "["
  || syntax.isc c "^" || syntax.isc c "$".

Definition atom_of (c : ascii) : syntax.atom :=
  if syntax.isc c "." then syntax.AnyNotNL else syntax.Lit c.

Definition operator_free (e : string) : bool :=
  forallb (fun c => negb (operator c)) (list_ascii_of_string e).

(** No operator and no dot: every character stands for itself. *)
Definition literal (e : string) : bool :=
  forallb (fun c => negb (operator c) && negb (syntax.isc c "."))
    (list_ascii_of_string e).

Definition newline : ascii := "010".

Definition newline_free (s : string) : bool :=
  forallb (fun c => negb (syntax.isc c newline)) (list_ascii_of_string s).

(** The text agrees with the pattern character by character. *)
Fixpoint agrees (cs s : list ascii) : bool :=
  match cs, s with
  | [], [] => true
  | c :: cs', y :: s' =>
      (if syntax.isc c "." then negb (syntax.isc y newline) else syntax.isc c y)
      && agrees cs' s'
  | _, _ => false
  end.

(** One atom against the text at a position: where the match goes on. *)
Definition accepts (a : syntax.atom) (pos : nat) (rest : list ascii)
  : option (nat * list ascii) :=
  match a with
  | syntax.Lit x =>
      match rest with
      | y :: rest' => if Ascii.eqb x y then Some (S pos, rest') else None
      | [] => None
      end
  | syntax.Class cl =>
      match rest with
      | y :: rest' => if syntax.in_class y cl then Some (S pos, rest') else None
      | [] => None
      end
  | syntax.AnyNotNL =>
      match rest with
      | y :: rest' => if Ascii.eqb y "010" then None else Some (S pos, rest')
      | [] => None
      end
  | syntax.BeginText => if pos =? 0 then Some (pos, rest) else None
  | syntax.EndText =>
      match rest with
      | [] => Some (pos, rest)
      | _ :: _ => None
      end
  end.

Fixpoint accepts_all (ats : list syntax.atom) (pos : nat) (rest : list ascii)
  : option (nat * list ascii) :=
  match ats with
  | [] => Some (pos, rest)
  | a :: ats' =>
      match accepts a pos rest with
      | Some (pos', rest') => accepts_all ats' pos' rest'
      | None => None
      end
  end.

Definition consuming (a : syntax.atom) : bool :=
  match a with
  | syntax.BeginText | syntax.EndText => false
  | _ => true
  end.

(** The tree the parser builds for a sequence of atoms. *)
Fixpoint straight (ats : list syntax.atom) : syntax.Regexp :=
  match ats with
  | [] => syntax.OpEmptyMatch
  | a :: ats' =>
      match ats' with
      | [] => syntax.leaf a
      | _ :: _ => syntax.OpConcat (syntax.leaf a) (straight ats')
      end
  end.

Definition join (acc : option syntax.Regexp) (re : syntax.Regexp)
  : option syntax.Regexp :=
  Some (match acc with None => re | Some a => syntax.OpConcat re a end).

(** In a walk of a sequence of atoms from node [id] at position [pos],
    node [id + j] is met at position [pos + j / 2].  [clear] says that none
    of these meetings has happened yet; [added] bounds what a walk adds. *)
Definition clear (id pos : nat) (v : regexp.visited) : Prop :=
  forall j b q, In ((id + j, b), q) v -> q <> pos + j / 2.

Definition added (id sz pos : nat) (v v' : regexp.visited) : Prop :=
  forall e,
    In e v' ->
    In e v \/ exists j b, j < sz /\ e = ((id + j, b), pos + j / 2).

(** The continuation of [.*] in [^.*$]: the end of the text, then done. *)
Definition at_end (start : nat) : regexp.cont :=
  fun pos rest c =>
    regexp.run syntax.OpEndText 5 pos rest c
      (fun pos' _ c' v' => (Some (regexp.set_cap 0 (start, pos') c'), v')).

(** The tree of ["^.*$"]. *)
Definition catch_all_tree : syntax.Regexp :=
  syntax.OpConcat syntax.OpBeginText
    (syntax.OpConcat (syntax.OpStar true syntax.OpAnyCharNotNL) syntax.OpEndText).

(** Some suffix of the text, from position [pos] on, is accepted. *)
Fixpoint suffix_accepts (ats : list syntax.atom) (pos : nat) (rest : list ascii)
  : bool :=
  match accepts_all ats pos rest with
  | Some _ => true
  | None =>
      match rest with
      | [] => false
      | _ :: rest' => suffix_accepts ats (S pos) rest'
      end
  end.

(** What has been visited when the search with [a|b] comes to start at
    [pos]: the alternation itself only at earlier positions, and node
    [idB + j] of the second branch only before [pos + j / 2]. *)
Definition alt_inv (idB pos : nat) (v : regexp.visited) : Prop :=
  (forall b q, In ((0, b), q) v -> q < pos)
  /\ (forall j b q, In ((idB + j, b), q) v -> q < pos + j / 2).

End derived.

(* ================================================================== *)
(** ** Facts about the parser: how groups are numbered *)

Section Numbering.

Import syntax.

Lemma concat_above_groups :
  forall st acc re st',
    concat_above st acc = (re, st') ->
    stack_groups st ++ acc_groups acc = stack_groups st' ++ groups re.
Proof.
  induction st as [|it st IH]; intros acc re st' H; simpl in H.
  - inversion H; subst; destruct acc; reflexivity.
  - destruct it as [r|cap|].
    + apply IH in H. rewrite <- H. simpl.
      destruct acc; simpl; rewrite <- ?app_assoc, ?app_nil_r; reflexivity.
    + inversion H; subst; destruct acc; reflexivity.
    + inversion H; subst; destruct acc; reflexivity.
Qed.

Lemma alternate_groups :
  forall st re re' st',
    alternate re st = (re', st') ->
    stack_groups st ++ groups re = stack_groups st' ++ groups re'.
Proof.
  assert (both : forall st,
             (forall re re' st', alternate re st = (re', st') ->
                stack_groups st ++ groups re = stack_groups st' ++ groups re')
             /\ (forall it re re' st', alternate re (it :: st) = (re', st') ->
                stack_groups (it :: st) ++ groups re
                = stack_groups st' ++ groups re')).
  { induction st as [|it0 st [IH1 IH2]].
    - split; intros.
      + simpl in H; inversion H; reflexivity.
      + destruct it; simpl in H; inversion H; reflexivity.
    - split; [exact (IH2 it0)|].
      intros it re re' st' H.
      destruct it; try (simpl in H; inversion H; reflexivity).
      destruct it0; try (simpl in H; inversion H; reflexivity).
      simpl in H. apply IH1 in H. rewrite <- H. simpl.
      rewrite app_nil_r, <- app_assoc. reflexivity. }
  intros st. apply both.
Qed.

Lemma collapse_groups :
  forall st re st',
    collapse st = (re, st') ->
    stack_groups st = stack_groups st' ++ groups re.
Proof.
  unfold collapse. intros st re st' H.
  destruct (concat_above st None) as [c st1] eqn:E.
  apply concat_above_groups in E. simpl in E. rewrite app_nil_r in E.
  apply alternate_groups in H. congruence.
Qed.

Lemma repetition_groups :
  forall op g sub, groups (repetition op g sub) = groups sub.
Proof. destruct op; reflexivity. Qed.

Lemma leaf_groups : forall a, groups (leaf a) = [].
Proof. destruct a; reflexivity. Qed.

(** The invariant of the main loop: the groups on the stack carry the
    numbers [1..ncap] in the order they were opened. *)
Lemma parse_tokens_groups :
  forall ts st ncap lastRepeat re,
    stack_groups st = seq 1 ncap ->
    parse_tokens ts st ncap lastRepeat = inr re ->
    exists n, groups re = seq 1 n.
Proof.
  induction ts as [|tk ts IH]; intros st ncap lr re Hst H; simpl in H.
  - destruct (collapse st) as [r st'] eqn:E.
    destruct st'; [|discriminate]. inversion H; subst.
    apply collapse_groups in E. simpl in E. exists ncap. congruence.
  - destruct tk as [a|op g| |[|]|].
    + eapply IH; [|exact H]. simpl.
      rewrite leaf_groups, app_nil_r. exact Hst.
    + destruct lr; [discriminate|].
      destruct st as [|[sub|cap|] st']; try discriminate.
      eapply IH; [|exact H]. simpl.
      rewrite repetition_groups. exact Hst.
    + destruct (concat_above st None) as [c st'] eqn:E.
      apply concat_above_groups in E. simpl in E. rewrite app_nil_r in E.
      eapply IH; [|exact H]. simpl. rewrite app_nil_r. congruence.
    + eapply IH; [|exact H]. simpl. rewrite Hst.
      symmetry. apply seq_S.
    + eapply IH; [|exact H]. simpl. rewrite app_nil_r. exact Hst.
    + destruct (collapse st) as [r st'] eqn:E.
      apply collapse_groups in E.
      destruct st' as [|[sub|cap|] st'']; try discriminate.
      eapply IH; [|exact H]. rewrite <- Hst, E. simpl.
      destruct cap; simpl; rewrite <- ?app_assoc; reflexivity.
Qed.

Theorem Parse_groups :
  forall s re, Parse s = inr re -> exists n, groups re = seq 1 n.
Proof.
  unfold Parse. intros s re H.
  destruct (unescape (list_ascii_of_string s)) as [|ss]; [discriminate|].
  destruct (lex Outside ss) as [|ts]; [discriminate|].
  eapply parse_tokens_groups; [|exact H]. reflexivity.
Qed.

(** [MaxCap] is the largest number among the groups. *)
Lemma MaxCap_groups : forall re, MaxCap re = list_max (groups re).
Proof.
  induction re; simpl; try reflexivity; try assumption.
  - congruence.
  - rewrite list_max_app. congruence.
  - rewrite list_max_app. congruence.
Qed.

Lemma list_max_seq1 : forall n, list_max (seq 1 n) = n.
Proof.
  induction n as [|n IH]; [reflexivity|].
  rewrite seq_S, list_max_app, IH. simpl. lia.
Qed.

End Numbering.

(* ================================================================== *)
(** ** Facts about the matcher: the bound on the rounds of a loop *)

Section Matcher.

Import regexp.

Lemma visit_ext :
  forall pt pos v (g1 g2 : visited -> result),
    (forall v', g1 v' = g2 v') -> visit pt pos v g1 = visit pt pos v g2.
Proof.
  intros pt pos v g1 g2 H. unfold visit.
  destruct (seen pt pos v); [reflexivity|apply H].
Qed.

Lemma orelse_ext :
  forall (a1 a2 b1 b2 : visited -> result) v,
    (forall v', a1 v' = a2 v') -> (forall v', b1 v' = b2 v') ->
    orelse a1 b1 v = orelse a2 b2 v.
Proof.
  intros a1 a2 b1 b2 v Ha Hb. unfold orelse. rewrite Ha.
  destruct (a2 v) as [[x|] v']; [reflexivity|apply Hb].
Qed.

Lemma prefer_ext :
  forall greedy (a1 a2 b1 b2 : visited -> result) v,
    (forall v', a1 v' = a2 v') -> (forall v', b1 v' = b2 v') ->
    prefer greedy a1 b1 v = prefer greedy a2 b2 v.
Proof.
  intros [|] a1 a2 b1 b2 v Ha Hb; unfold prefer; apply orelse_ext; assumption.
Qed.

Lemma loop_ext :
  forall step lp greedy,
    extensional step ->
    forall fuel k1 k2,
      cont_eq k1 k2 ->
      cont_eq (loop step lp greedy fuel k1) (loop step lp greedy fuel k2).
Proof.
  intros step lp greedy E.
  induction fuel as [|fuel IH]; intros k1 k2 K pos rest c v; simpl;
    apply visit_ext; intros v1; apply prefer_ext; intros v2;
    try apply K; apply E; intros pos' rest' c' v'; try reflexivity.
  destruct (length rest' <? length rest); [|reflexivity].
  apply IH. exact K.
Qed.

(** The matcher uses its continuation only through the answers it gives. *)
Lemma run_ext : forall re id, extensional (run re id).
Proof.
  induction re as [ |x|cl| | | |i sub IH|g sub IH|g sub IH|g sub IH
                  |a IHa b IHb|a IHa b IHb];
    intros id pos rest c k1 k2 v K; simpl; apply visit_ext; intros v1.
  - apply K.
  - destruct rest as [|y rest']; [reflexivity|].
    destruct (Ascii.eqb x y); [apply K|reflexivity].
  - destruct rest as [|y rest']; [reflexivity|].
    destruct (syntax.in_class y cl); [apply K|reflexivity].
  - destruct rest as [|y rest']; [reflexivity|].
    destruct (Ascii.eqb y "010"); [reflexivity|apply K].
  - destruct (pos =? 0); [apply K|reflexivity].
  - destruct rest; [apply K|reflexivity].
  - apply IH. intros pos' rest' c' v'. apply visit_ext. intros v2. apply K.
  - apply prefer_ext; intros v2; [|apply K].
    apply IH. intros pos' rest' c' v'.
    apply loop_ext; [apply IH|exact K].
  - apply IH. intros pos' rest' c' v'.
    apply loop_ext; [apply IH|exact K].
  - apply prefer_ext; intros v2; [|apply K]. apply IH. exact K.
  - apply IHa. intros pos' rest' c' v'. apply IHb. exact K.
  - apply orelse_ext; intros v2; [apply IHa|apply IHb]; exact K.
Qed.

(** A loop entered with at least [length rest] rounds allowed behaves the
    same with any larger allowance: the allowance [length rest] that [run]
    gives is never what ends a repetition. *)
Theorem loop_fuel_enough :
  forall step lp greedy k,
    extensional step ->
    forall fuel1 fuel2 pos rest c v,
      length rest <= fuel1 -> length rest <= fuel2 ->
      loop step lp greedy fuel1 k pos rest c v
      = loop step lp greedy fuel2 k pos rest c v.
Proof.
  intros step lp greedy k E.
  induction fuel1 as [|fuel1 IH]; intros fuel2 pos rest c v H1 H2.
  - destruct rest; [|simpl in H1; lia].
    destruct fuel2; simpl; [reflexivity|].
    apply visit_ext; intros v1. apply prefer_ext; intros v2; [|reflexivity].
    apply E. intros pos' rest' c' v'. simpl.
    destruct (length rest'); reflexivity.
  - destruct fuel2 as [|fuel2].
    + destruct rest; [|simpl in H2; lia]. simpl.
      apply visit_ext; intros v1. apply prefer_ext; intros v2; [|reflexivity].
      apply E. intros pos' rest' c' v'. simpl.
      destruct (length rest'); reflexivity.
    + simpl. apply visit_ext; intros v1.
      apply prefer_ext; intros v2; [|reflexivity].
      apply E. intros pos' rest' c' v'.
      destruct (length rest' <? length rest) eqn:L; [|reflexivity].
      apply Nat.ltb_lt in L. apply IH; lia.
Qed.

End Matcher.

(* ================================================================== *)
(** ** Facts about compiled expressions *)

Section Compiled.

Import Go.

Lemma Compile_groups :
  forall str re,
    regexp.Compile str = inr re ->
    syntax.groups (regexp.prog re) = seq 1 (regexp.numSubexp re).
Proof.
  unfold regexp.Compile. intros str re H.
  destruct (syntax.Parse str) as [|t] eqn:E; [discriminate|].
  inversion H; subst; simpl.
  destruct (Parse_groups _ E) as [n Hn].
  rewrite MaxCap_groups, Hn, list_max_seq1. reflexivity.
Qed.

Lemma MustCompile_Compile :
  forall str re,
    regexp.MustCompile str = Returned re <-> regexp.Compile str = inr re.
Proof.
  unfold regexp.MustCompile. intros str re.
  destruct (regexp.Compile str); split; intros H;
    inversion H; subst; reflexivity.
Qed.

Lemma MustCompile_groups :
  forall str re,
    regexp.MustCompile str = Returned re ->
    syntax.groups (regexp.prog re) = seq 1 (regexp.numSubexp re).
Proof.
  intros str re H. apply MustCompile_Compile in H.
  eapply Compile_groups; eassumption.
Qed.

(** What [FindStringSubmatch] returns, by cases on the search. *)
Lemma FindStringSubmatch_match :
  forall re s a,
    regexp.doExecute re s = Some a ->
    regexp.FindStringSubmatch re s
    = mk_slice (regexp.group_text a s 0 :: regexp.submatches re a s).
Proof.
  intros re s a H. unfold regexp.FindStringSubmatch. rewrite H.
  reflexivity.
Qed.

Lemma FindStringSubmatch_no_match :
  forall re s,
    regexp.doExecute re s = None ->
    regexp.FindStringSubmatch re s = nil_slice.
Proof.
  intros re s H. unfold regexp.FindStringSubmatch. rewrite H. reflexivity.
Qed.

Lemma submatches_length :
  forall re a s, length (regexp.submatches re a s) = regexp.numSubexp re.
Proof.
  intros. unfold regexp.submatches. rewrite length_map, length_seq.
  reflexivity.
Qed.

Lemma submatches_nth :
  forall re a s j,
    j < regexp.numSubexp re ->
    nth_error (regexp.submatches re a s) j
    = Some (regexp.group_text a s (S j)).
Proof.
  intros re a s j Hj. unfold regexp.submatches.
  rewrite nth_error_map.
  rewrite (nth_error_nth' _ 0) by (rewrite length_seq; exact Hj).
  rewrite seq_nth by exact Hj. reflexivity.
Qed.

End Compiled.

(* ================================================================== *)
(** ** Facts about registration and dispatch *)

Section Dispatch.

Import Go handler.

Variable ResponseWriter : Type.
Variable Func : Type.

Implicit Types (h : RegexpHandler Func) (rt : route Func)
  (w : ResponseWriter) (r : http.Request).

Local Notation "'path' r" := (url.Path (http.URL r)) (at level 10, r at level 9).

Lemma table_append :
  forall h rt,
    table {| routes := append (routes h) rt |} = table h ++ [rt].
Proof.
  intros [[|l]] rt; reflexivity.
Qed.

Lemma Add_cases :
  forall expression (function : Func) h,
    (exists msg,
        regexp.MustCompile ("^" ++ expression ++ "$") = Panicked msg
        /\ Add expression function h = (Panicked msg, h))
    \/ (exists re0,
           regexp.MustCompile ("^" ++ expression ++ "$") = Returned re0
           /\ Add expression function h
              = (Returned tt,
                 {| routes := append (routes h) {| re := re0; f := function |} |})).
Proof.
  intros expression function h. unfold Add.
  destruct (regexp.MustCompile ("^" ++ expression ++ "$")) as [re0|msg].
  - right. exists re0. split; reflexivity.
  - left. exists msg. split; reflexivity.
Qed.

Lemma Add_returned :
  forall expression (function : Func) h u h',
    Add expression function h = (Returned u, h') ->
    exists rt,
      built_from rt (expression, function) /\ table h' = table h ++ [rt].
Proof.
  intros expression function h u h' H.
  destruct (Add_cases expression function h) as [[msg [_ E]]|[re0 [C E]]];
    rewrite E in H; inversion H; subst.
  exists {| re := re0; f := function |}. split.
  - split; [exact C|reflexivity].
  - apply table_append.
Qed.

Lemma AddAll_table :
  forall regs h h',
    AddAll regs h = (Returned tt, h') ->
    exists rs, table h' = table h ++ rs /\ Forall2 (@built_from Func) rs regs.
Proof.
  induction regs as [|[expression function] regs IH]; intros h h' H; simpl in H.
  - inversion H; subst. exists []. rewrite app_nil_r. split; constructor.
  - destruct (Add expression function h) as [[u|msg] h1] eqn:E; [|discriminate].
    apply Add_returned in E. destruct E as [rt [B T]].
    apply IH in H. destruct H as [rs [T' F]].
    exists (rt :: rs). split.
    + rewrite T', T, <- app_assoc. reflexivity.
    + constructor; assumption.
Qed.

Lemma serve_find :
  forall w r rs,
    serve w r rs
    = match find (fun rt => route_matches rt (path r)) rs with
      | Some rt =>
          match regexp.doExecute (re rt) (path r) with
          | Some a =>
              (Returned tt, [call_of w r rt (regexp.submatches (re rt) a (path r))])
          | None => (Returned tt, [])
          end
      | None => (Returned tt, [])
      end.
Proof.
  intros w r rs. induction rs as [|rt rs IH]; [reflexivity|].
  simpl. unfold route_matches.
  destruct (regexp.doExecute (re rt) (path r)) as [a|] eqn:E.
  - rewrite (FindStringSubmatch_match _ _ E). simpl. rewrite E. reflexivity.
  - rewrite (FindStringSubmatch_no_match _ _ E). simpl. exact IH.
Qed.

Lemma route_matches_doExecute :
  forall rt s,
    route_matches rt s = true ->
    exists a, regexp.doExecute (re rt) s = Some a.
Proof.
  intros rt s. unfold route_matches, regexp.FindStringSubmatch.
  destruct (regexp.doExecute (re rt) s) as [a|]; [eauto|discriminate].
Qed.

(** Dispatch calls the function of the selected route, once, with the
    texts of its groups; with no route selected it calls nothing. *)
Lemma ServeHTTP_selected :
  forall h w r rt,
    selected h (path r) = Some rt ->
    exists a,
      regexp.doExecute (re rt) (path r) = Some a
      /\ ServeHTTP w r h
         = (Returned tt, h,
            [call_of w r rt (regexp.submatches (re rt) a (path r))]).
Proof.
  intros h w r rt S. unfold ServeHTTP, selected, table in *.
  rewrite serve_find, S.
  destruct (find_some _ _ S) as [_ M].
  destruct (route_matches_doExecute _ _ M) as [a E].
  exists a. rewrite E. split; reflexivity.
Qed.

Lemma ServeHTTP_none_selected :
  forall h w r,
    selected h (path r) = None ->
    ServeHTTP w r h = (Returned tt, h, []).
Proof.
  intros h w r S. unfold ServeHTTP, selected, table in *.
  rewrite serve_find, S. reflexivity.
Qed.

Lemma find_first :
  forall (A : Type) (p : A -> bool) (l : list A) i x,
    nth_error l i = Some x ->
    p x = true ->
    (forall j y, j < i -> nth_error l j = Some y -> p y = false) ->
    find p l = Some x.
Proof.
  intros A p. induction l as [|y l IH]; intros i x N P B.
  - destruct i; discriminate.
  - destruct i as [|i]; simpl in *.
    + inversion N; subst. rewrite P. reflexivity.
    + rewrite (B 0 y) by (reflexivity || lia).
      apply (IH i); auto.
      intros j z Hj Hz. apply (B (S j)); [lia|exact Hz].
Qed.

Lemma built_from_matches :
  forall rt expression (function : Func) s,
    built_from rt (expression, function) ->
    route_matches rt s = pattern_matches expression s.
Proof.
  intros rt expression function s [C _]. cbn [fst] in C.
  unfold pattern_matches, route_matches. rewrite C. reflexivity.
Qed.

End Dispatch.

(* ================================================================== *)
(** ** The properties of registration and dispatch *)

Section Properties.

Import Go handler.

Variable ResponseWriter : Type.
Variable Func : Type.

Implicit Types (h : RegexpHandler Func) (rt : route Func)
  (w : ResponseWriter) (r : http.Request).

Local Notation "'path' r" := (url.Path (http.URL r)) (at level 10, r at level 9).

Lemma Forall2_nth_right :
  forall (A B : Type) (R : A -> B -> Prop) l1 l2 i y,
    Forall2 R l1 l2 -> nth_error l2 i = Some y ->
    exists x, nth_error l1 i = Some x /\ R x y.
Proof.
  intros A B R l1 l2 i y F. revert i.
  induction F as [|x0 y0 l1 l2 H F IH]; intros [|i] N; simpl in *;
    try discriminate.
  - inversion N; subst. eauto.
  - apply IH; exact N.
Qed.

Lemma Forall2_nth_left :
  forall (A B : Type) (R : A -> B -> Prop) l1 l2 i x,
    Forall2 R l1 l2 -> nth_error l1 i = Some x ->
    exists y, nth_error l2 i = Some y /\ R x y.
Proof.
  intros A B R l1 l2 i x F. revert i.
  induction F as [|x0 y0 l1 l2 H F IH]; intros [|i] N; simpl in *;
    try discriminate.
  - inversion N; subst. eauto.
  - apply IH; exact N.
Qed.


(** A selected route that [Add] built: the call made, the number of its
    arguments and how the groups are numbered. *)
Lemma dispatch_compiled :
  forall expression h w r rt,
    regexp.MustCompile ("^" ++ expression ++ "$") = Returned (re rt) ->
    selected h (path r) = Some rt ->
    exists a,
      regexp.doExecute (re rt) (path r) = Some a
      /\ syntax.groups (regexp.prog (re rt)) = seq 1 (regexp.numSubexp (re rt))
      /\ ServeHTTP w r h
         = (Returned tt, h,
            [call_of w r rt (regexp.submatches (re rt) a (path r))]).
Proof.
  intros expression h w r rt C S.
  destruct (ServeHTTP_selected h w r S) as [a [E D]].
  exists a. split; [exact E|]. split; [|exact D].
  eapply MustCompile_groups; eassumption.
Qed.



(** C5.  When no route of the table matches the path, dispatch returns
    normally, calls no function and leaves the table as it was. *)
Theorem ServeHTTP_no_match_is_noop :
  forall h w r,
    (forall rt, In rt (table h) -> route_matches rt (path r) = false) ->
    ServeHTTP w r h = (Returned tt, h, []).
Proof.
  intros h w r H. apply ServeHTTP_none_selected.
  unfold selected. destruct (find _ (table h)) as [rt|] eqn:E; [|reflexivity].
  destruct (find_some _ _ E) as [I M]. rewrite (H rt I) in M. discriminate.
Qed.

Lemma perform_table :
  forall (ops : list (operation ResponseWriter Func)) h h',
    perform ops h = (Returned tt, h') ->
    exists rs,
      table h' = table h ++ rs
      /\ Forall2 (@built_from Func) rs (registrations ops).
Proof.
  induction ops as [|[expression function|w r] ops IH]; intros h h' H;
    simpl in H.
  - inversion H; subst. exists []. rewrite app_nil_r. split; constructor.
  - destruct (Add expression function h) as [[u|msg] h1] eqn:E; [|discriminate].
    apply Add_returned in E. destruct E as [rt [B T]].
    apply IH in H. destruct H as [rs [T' F]].
    exists (rt :: rs). split.
    + rewrite T', T, <- app_assoc. reflexivity.
    + simpl. constructor; assumption.
  - unfold ServeHTTP in H.
    destruct (serve w r (elements (routes h))) as [[u|msg] calls];
      [|discriminate].
    apply IH in H. exact H.
Qed.

(** C6.  After any history of registrations and requests that ran to its
    end, the table is the table before it followed by one route for each
    [Add], in the order the calls were made, each route holding the
    compiled pattern and the function of its call.  Nothing that was in
    the table is moved, dropped or changed, and equal registrations are
    kept apart. *)
Theorem table_is_registration_order :
  forall (ops : list (operation ResponseWriter Func)) h h',
    perform ops h = (Returned tt, h') ->
    exists rs,
      table h' = table h ++ rs
      /\ Forall2 (@built_from Func) rs (registrations ops)
      /\ length (table h') = length (table h) + length (registrations ops).
Proof.
  intros ops h h' H.
  destruct (perform_table _ _ H) as [rs [T F]].
  exists rs. split; [exact T|]. split; [exact F|].
  rewrite T, length_app, (Forall2_length F). reflexivity.
Qed.

(** C7.  A route was registered with a pattern that has no capture group
    and a dispatch selects it.  Then its function is called with a
    capture slice that is not nil and has length zero. *)
Theorem zero_groups_empty_captures :
  forall expression h w r rt,
    regexp.MustCompile ("^" ++ expression ++ "$") = Returned (re rt) ->
    selected h (path r) = Some rt ->
    syntax.groups (regexp.prog (re rt)) = [] ->
    ServeHTTP w r h
    = (Returned tt, h,
       [{| callee := f rt; arg_w := w; arg_r := r; arg_matches := mk_slice [] |}])
    /\ is_nil (@mk_slice string []) = false
    /\ len (@mk_slice string []) = 0.
Proof.
  intros expression h w r rt C S Z.
  destruct (dispatch_compiled expression h w r C S) as [a [_ [G D]]].
  rewrite Z in G.
  assert (N : regexp.numSubexp (re rt) = 0).
  { destruct (regexp.numSubexp (re rt)); [reflexivity|discriminate]. }
  rewrite D. unfold call_of, regexp.submatches. rewrite N.
  repeat split.
Qed.

(** C9.  Dispatch leaves the handler exactly as it found it, and what it
    does besides is at most one call, to the function of a route of the
    table, passing on the writer and the request it was given. *)
Theorem ServeHTTP_only_calls :
  forall h w r,
    snd (fst (ServeHTTP w r h)) = h
    /\ (snd (ServeHTTP w r h) = []
        \/ exists rt args,
            In rt (table h)
            /\ snd (ServeHTTP w r h) = [call_of w r rt args]).
Proof.
  intros h w r.
  destruct (selected h (path r)) as [rt|] eqn:S.
  - destruct (ServeHTTP_selected h w r S) as [a [_ E]]. rewrite E.
    split; [reflexivity|]. right.
    exists rt, (regexp.submatches (re rt) a (path r)). split; [|reflexivity].
    unfold selected in S. apply find_some in S. apply S.
  - rewrite (ServeHTTP_none_selected h w r S).
    split; [reflexivity|left; reflexivity].
Qed.

(** C10.  A route was registered and a dispatch selects it.  The slice
    its function receives has one entry for each capture group of the
    pattern, and the entry of a group that took no part in the match is
    the empty string, at that group's position. *)
Theorem unmatched_group_is_empty_string :
  forall expression h w r rt,
    regexp.MustCompile ("^" ++ expression ++ "$") = Returned (re rt) ->
    selected h (path r) = Some rt ->
    exists a args,
      regexp.doExecute (re rt) (path r) = Some a
      /\ ServeHTTP w r h = (Returned tt, h, [call_of w r rt args])
      /\ length args = length (syntax.groups (regexp.prog (re rt)))
      /\ (forall i,
            In i (syntax.groups (regexp.prog (re rt))) ->
            nth i a None = None ->
            nth_error args (i - 1) = Some "").
Proof.
  intros expression h w r rt C Sel.
  destruct (dispatch_compiled expression h w r C Sel) as [a [E [G D]]].
  exists a, (regexp.submatches (re rt) a (path r)).
  split; [exact E|]. split; [exact D|]. split.
  - rewrite submatches_length, G, length_seq. reflexivity.
  - intros i I U. rewrite G in I. apply in_seq in I.
    rewrite submatches_nth by lia.
    replace (S (i - 1)) with i by lia.
    unfold regexp.group_text. rewrite U. reflexivity.
Qed.

End Properties.

(* ================================================================== *)
(** ** The statements at work on small tables *)

Section Instances.

Import Go handler examples.

(** C2.  [Add] anchors by writing [^] before and [$] after the text of the
    pattern.  With an alternation at the top of the pattern the two
    anchors fall into different branches: ["^a|b$"] is [^a] or [b$].  The
    route registered for ["a|b"] therefore accepts ["ab"] (a prefix
    matches) and ["xb"] (a suffix matches), and its function is called
    for them, although ["a|b"] matches neither as a whole string. *)
Theorem anchoring_splits_top_level_alternation :
  syntax.Parse "^a|b$"
  = inr (syntax.OpAlternate
           (syntax.OpConcat syntax.OpBeginText (syntax.OpLiteral "a"))
           (syntax.OpConcat (syntax.OpLiteral "b") syntax.OpEndText))
  /\ pattern_matches "a|b" "ab" = true
  /\ regexp.whole_string_match "a|b" "ab" = false
  /\ pattern_matches "a|b" "xb" = true
  /\ regexp.whole_string_match "a|b" "xb" = false
  /\ regexp.whole_string_match "a|b" "a" = true
  /\ regexp.whole_string_match "a|b" "b" = true
  /\ ServeHTTP tt (request "ab") (registered [("a|b", "serveAB")])
     = (Returned tt, registered [("a|b", "serveAB")],
        [{| callee := "serveAB"; arg_w := tt; arg_r := request "ab";
            arg_matches := mk_slice [] |}]).
Proof.
  repeat split; vm_compute; reflexivity.
Qed.

(** C8.  The route registered for ["foo"] matches the path ["foo"] and
    neither ["foobar"] nor ["xfoo"]: dispatching those two calls nothing. *)
Theorem foo_matches_the_whole_path_only :
  pattern_matches "foo" "foobar" = false
  /\ pattern_matches "foo" "xfoo" = false
  /\ pattern_matches "foo" "foo" = true
  /\ forall (ResponseWriter Func : Type) (w : ResponseWriter) (fn : Func),
      let h := snd (Add "foo" fn NewRegexpHandler) in
      fst (Add "foo" fn NewRegexpHandler) = Returned tt
      /\ ServeHTTP w (request "foobar") h = (Returned tt, h, [])
      /\ ServeHTTP w (request "xfoo") h = (Returned tt, h, [])
      /\ ServeHTTP w (request "foo") h
         = (Returned tt, h,
            [{| callee := fn; arg_w := w; arg_r := request "foo";
                arg_matches := mk_slice [] |}]).
Proof.
  repeat split; vm_compute; reflexivity.
Qed.



(** The captures of that request, computed. *)
Example user_route_captures :
  ServeHTTP tt (request "/user/42/likes") (registered user_routes)
  = (Returned tt, registered user_routes,
     [{| callee := "serveUser"; arg_w := tt;
         arg_r := request "/user/42/likes";
         arg_matches := mk_slice ["42"; "likes"] |}]).
Proof. vm_compute. reflexivity. Qed.


Lemma ServeHTTP_no_match_is_noop_witness :
  ServeHTTP tt (request "/ab") (registered three_routes)
  = (Returned tt, registered three_routes, []).
Proof.
  apply (@ServeHTTP_no_match_is_noop unit string (registered three_routes) tt
           (request "/ab")).
  intros rt I. vm_compute in I.
  destruct I as [<-|[<-|[<-|[]]]]; vm_compute; reflexivity.
Defined.

Lemma table_is_registration_order_witness :
  exists rs,
    table (snd (perform twice NewRegexpHandler))
    = table (@NewRegexpHandler string) ++ rs
    /\ Forall2 (@built_from string) rs (registrations twice)
    /\ length (table (snd (perform twice NewRegexpHandler)))
       = length (table (@NewRegexpHandler string)) + length (registrations twice).
Proof.
  apply (@table_is_registration_order unit string twice NewRegexpHandler
           (snd (perform twice NewRegexpHandler))).
  vm_compute. reflexivity.
Defined.

(** Registering ["a*"] and dispatching the empty path calls its function
    with an empty, non-nil capture slice. *)
Lemma zero_groups_empty_captures_witness :
  ServeHTTP tt (request "") (registered star_routes)
  = (Returned tt, registered star_routes,
     [{| callee := f (compiled_route "a*" "serveStar"); arg_w := tt;
         arg_r := request ""; arg_matches := mk_slice [] |}])
  /\ is_nil (@mk_slice string []) = false
  /\ len (@mk_slice string []) = 0.
Proof.
  apply (@zero_groups_empty_captures unit string "a*" (registered star_routes)
           tt (request "") (compiled_route "a*" "serveStar")).
  - vm_compute. reflexivity.
  - vm_compute. reflexivity.
  - vm_compute. reflexivity.
Defined.

Lemma unmatched_group_is_empty_string_witness :
  exists a args,
    regexp.doExecute (re (compiled_route "(a)?b" "serveB")) "b" = Some a
    /\ ServeHTTP tt (request "b") (registered optional_routes)
       = (Returned tt, registered optional_routes,
          [call_of tt (request "b") (compiled_route "(a)?b" "serveB") args])
    /\ length args
       = length (syntax.groups (regexp.prog (re (compiled_route "(a)?b" "serveB"))))
    /\ (forall i,
          In i (syntax.groups (regexp.prog (re (compiled_route "(a)?b" "serveB")))) ->
          nth i a None = None ->
          nth_error args (i - 1) = Some "").
Proof.
  apply (@unmatched_group_is_empty_string unit string "(a)?b"
           (registered optional_routes) tt (request "b")
           (compiled_route "(a)?b" "serveB")).
  - vm_compute. reflexivity.
  - vm_compute. reflexivity.
Defined.

(** In that match group 1 took no part, and its entry is the empty
    string. *)
Example optional_group_absent :
  regexp.doExecute (re (compiled_route "(a)?b" "serveB")) "b"
  = Some [Some (0, 1); None]
  /\ ServeHTTP tt (request "b") (registered optional_routes)
     = (Returned tt, registered optional_routes,
        [{| callee := "serveB"; arg_w := tt; arg_r := request "b";
            arg_matches := mk_slice [""] |}]).
Proof. split; vm_compute; reflexivity. Qed.

End Instances.

(* ================================================================== *)
(** ** How registration and dispatch compose *)

Section Composition.

Import Go handler derived.

Variable ResponseWriter : Type.
Variable Func : Type.

Implicit Types (h : RegexpHandler Func) (rt : route Func)
  (w : ResponseWriter) (r : http.Request).

Local Notation "'path' r" := (url.Path (http.URL r)) (at level 10, r at level 9).

Lemma ServeHTTP_calls_for :
  forall h w r,
    ServeHTTP w r h = (Returned tt, h, calls_for w r (selected h (path r))).
Proof.
  intros h w r. unfold ServeHTTP, selected, table, calls_for.
  rewrite serve_find.
  destruct (find _ (elements (routes h))) as [rt|]; [|reflexivity].
  destruct (regexp.doExecute (re rt) (path r)); reflexivity.
Qed.

Lemma calls_for_nil :
  forall h w r,
    calls_for w r (selected h (path r)) = [] <-> selected h (path r) = None.
Proof.
  intros h w r. split.
  - destruct (selected h (path r)) as [rt|] eqn:Sel; [|reflexivity].
    unfold selected in Sel. apply find_some in Sel. destruct Sel as [_ M].
    destruct (route_matches_doExecute _ _ M) as [a E].
    simpl. rewrite E. discriminate.
  - intros ->. reflexivity.
Qed.

Lemma find_app_some :
  forall (A : Type) (p : A -> bool) l l' x,
    find p l = Some x -> find p (l ++ l') = Some x.
Proof.
  intros A p. induction l as [|y l IH]; intros l' x H; simpl in *.
  - discriminate.
  - destruct (p y); [exact H|apply IH; exact H].
Qed.

Lemma find_app_none :
  forall (A : Type) (p : A -> bool) l l',
    find p l = None -> find p (l ++ l') = find p l'.
Proof.
  intros A p. induction l as [|y l IH]; intros l' H; simpl in *.
  - reflexivity.
  - destruct (p y); [discriminate|apply IH; exact H].
Qed.

Lemma find_index :
  forall (A : Type) (p : A -> bool) l x,
    find p l = Some x ->
    exists i,
      nth_error l i = Some x /\ p x = true
      /\ forall j y, j < i -> nth_error l j = Some y -> p y = false.
Proof.
  intros A p. induction l as [|y l IH]; intros x H; simpl in H.
  - discriminate.
  - destruct (p y) eqn:E.
    + inversion H; subst. exists 0. split; [reflexivity|]. split; [exact E|].
      intros j z Hj. lia.
    + destruct (IH x H) as [i [N [P B]]]. exists (S i).
      split; [exact N|]. split; [exact P|].
      intros [|j] z Hj Hz; simpl in Hz.
      * inversion Hz; subst. exact E.
      * apply (B j); [lia|exact Hz].
Qed.

Lemma built_from_unique :
  forall rt rt' (reg : string * Func),
    built_from rt reg -> built_from rt' reg -> rt = rt'.
Proof.
  intros [re1 f1] [re2 f2] reg [C1 F1] [C2 F2]. simpl in *.
  rewrite C1 in C2. inversion C2. congruence.
Qed.

Lemma built_from_all_unique :
  forall rs rs' (regs : list (string * Func)),
    Forall2 (@built_from Func) rs regs ->
    Forall2 (@built_from Func) rs' regs ->
    rs = rs'.
Proof.
  intros rs rs' regs F. revert rs'.
  induction F as [|rt reg rs regs B F IH]; intros rs' F'; inversion F'; subst.
  - reflexivity.
  - f_equal; [eapply built_from_unique; eassumption|apply IH; assumption].
Qed.


(** X2.  What one more [Add] changes for a request: nothing if some route
    already took it; otherwise the new route takes it exactly when its
    pattern matches the path. *)
Theorem Add_extends_dispatch :
  forall expression (function : Func) h h' w r,
    Add expression function h = (Returned tt, h') ->
    (snd (ServeHTTP w r h) <> [] ->
     snd (ServeHTTP w r h') = snd (ServeHTTP w r h))
    /\ (snd (ServeHTTP w r h) = [] ->
        pattern_matches expression (path r) = false ->
        snd (ServeHTTP w r h') = [])
    /\ (snd (ServeHTTP w r h) = [] ->
        pattern_matches expression (path r) = true ->
        exists args,
          snd (ServeHTTP w r h')
          = [{| callee := function; arg_w := w; arg_r := r;
                arg_matches := mk_slice args |}]).
Proof.
  intros expression function h h' w r HA.
  destruct (Add_returned _ _ _ HA) as [rt [B T]].
  assert (M : route_matches rt (path r) = pattern_matches expression (path r))
    by (eapply built_from_matches; exact B).
  assert (Sel' : selected h' (path r)
                 = match selected h (path r) with
                   | Some x => Some x
                   | None => if route_matches rt (path r) then Some rt else None
                   end).
  { unfold selected. rewrite T.
    destruct (find (fun x => route_matches x (path r)) (table h)) as [x|] eqn:F.
    - apply find_app_some. exact F.
    - rewrite (find_app_none _ _ _ F). reflexivity. }
  rewrite !ServeHTTP_calls_for. simpl. rewrite Sel'.
  split; [|split].
  - intros NE.
    destruct (selected h (path r)) as [rt0|]; [reflexivity|].
    exfalso. apply NE. reflexivity.
  - intros E P. apply calls_for_nil in E. rewrite E, M, P. reflexivity.
  - intros E P. apply calls_for_nil in E. rewrite E, M, P. simpl.
    assert (RM : route_matches rt (path r) = true) by congruence.
    destruct (route_matches_doExecute _ _ RM) as [a Ea]. rewrite Ea.
    exists (regexp.submatches (re rt) a (path r)).
    unfold call_of. destruct B as [_ Bf]. simpl in Bf. rewrite Bf.
    reflexivity.
Qed.

(** X3.  Every call the dispatcher makes is to the function of the first
    registration whose pattern matches the path of the request, with the
    writer and the request it was given; a function is never called for a
    path its own pattern does not match. *)
Theorem every_call_is_to_the_first_match :
  forall (regs : list (string * Func)) h w r c,
    AddAll regs NewRegexpHandler = (Returned tt, h) ->
    In c (snd (ServeHTTP w r h)) ->
    snd (ServeHTTP w r h) = [c]
    /\ arg_w c = w /\ arg_r c = r
    /\ exists i expression,
        nth_error regs i = Some (expression, callee c)
        /\ pattern_matches expression (path r) = true
        /\ forall j ej fj,
            j < i -> nth_error regs j = Some (ej, fj) ->
            pattern_matches ej (path r) = false.
Proof.
  intros regs h w r c HA HI.
  destruct (AddAll_table _ _ HA) as [rs [HT HF]]. simpl in HT.
  rewrite ServeHTTP_calls_for in *. simpl in *.
  destruct (selected h (path r)) as [rt|] eqn:Sel; [|contradiction].
  unfold calls_for in *.
  destruct (regexp.doExecute (re rt) (path r)) as [a|] eqn:E; [|contradiction].
  simpl in HI. destruct HI as [HI|HI]; [subst c|destruct HI].
  split; [reflexivity|].
  split; [reflexivity|]. split; [reflexivity|].
  unfold selected in Sel. rewrite HT in Sel.
  destruct (find_index _ _ Sel) as [i [N [P B]]].
  destruct (Forall2_nth_left _ HF N) as [[expression fn] [Hreg Bi]].
  exists i, expression. split.
  - simpl. destruct Bi as [_ Bf]. simpl in Bf. rewrite Bf. exact Hreg.
  - split.
    + rewrite <- (built_from_matches _ Bi). exact P.
    + intros j ej fj Hj Hn.
      destruct (Forall2_nth_right _ HF Hn) as [rj [Nj Bj]].
      rewrite <- (built_from_matches _ Bj). apply (B j); assumption.
Qed.

Lemma find_swap :
  forall (A : Type) (p : A -> bool) l x y l',
    p x && p y = false ->
    find p (l ++ x :: y :: l') = find p (l ++ y :: x :: l').
Proof.
  intros A p. induction l as [|z l IH]; intros x y l' D; simpl.
  - destruct (p x) eqn:Px, (p y) eqn:Py; try reflexivity. discriminate.
  - destruct (p z); [reflexivity|apply IH; exact D].
Qed.

Lemma find_shadowed :
  forall (A : Type) (p : A -> bool) l x m y l',
    (p y = true -> p x = true) ->
    find p (l ++ x :: m ++ y :: l') = find p (l ++ x :: m ++ l').
Proof.
  intros A p l x m y l' Sh.
  induction l as [|z l IH]; simpl.
  - destruct (p x) eqn:Px; [reflexivity|].
    induction m as [|z m IHm]; simpl.
    + destruct (p y); [|reflexivity]. discriminate (Sh eq_refl).
    + destruct (p z); [reflexivity|exact IHm].
  - destruct (p z); [reflexivity|exact IH].
Qed.

Lemma AddAll_routes :
  forall (regs : list (string * Func)) h,
    AddAll regs NewRegexpHandler = (Returned tt, h) ->
    Forall2 (@built_from Func) (table h) regs.
Proof.
  intros regs h HA.
  destruct (AddAll_table _ _ HA) as [rs [HT HF]]. simpl in HT.
  rewrite HT. exact HF.
Qed.

(** X4.  The order of two neighbouring registrations matters only for a path
    that both patterns match: for any other request the two orders make
    the same calls. *)
Theorem order_matters_only_on_overlap :
  forall (pre post : list (string * Func)) x y h h' w r,
    AddAll (pre ++ x :: y :: post) NewRegexpHandler = (Returned tt, h) ->
    AddAll (pre ++ y :: x :: post) NewRegexpHandler = (Returned tt, h') ->
    pattern_matches (fst x) (path r) && pattern_matches (fst y) (path r) = false ->
    snd (ServeHTTP w r h) = snd (ServeHTTP w r h').
Proof.
  intros pre post [ex fx] [ey fy] h h' w r HA HA' D.
  apply AddAll_routes in HA. apply AddAll_routes in HA'.
  apply Forall2_app_inv_r in HA. destruct HA as [a [b [Fa [Fb Ta]]]].
  apply Forall2_app_inv_r in HA'. destruct HA' as [a' [b' [Fa' [Fb' Ta']]]].
  inversion Fb as [|rx ? b1 ? Bx Fb1]; subst.
  inversion Fb1 as [|ry ? b2 ? By Fb2]; subst.
  inversion Fb' as [|ry' ? b1' ? By' Fb1']; subst.
  inversion Fb1' as [|rx' ? b2' ? Bx' Fb2']; subst.
  rewrite (built_from_all_unique Fa' Fa) in Ta'.
  rewrite (built_from_unique By' By), (built_from_unique Bx' Bx) in Ta'.
  rewrite (built_from_all_unique Fb2' Fb2) in Ta'.
  rewrite !ServeHTTP_calls_for. simpl. f_equal.
  unfold selected. rewrite Ta, Ta'. apply find_swap.
  rewrite (built_from_matches _ Bx), (built_from_matches _ By). exact D.
Qed.

(** X5.  A registration is never reached by a path that an earlier
    registration also matches: for such a request the table with it and
    the table without it make the same calls.  In particular a pattern
    registered a second time is dead. *)
Theorem shadowed_registration_is_dead :
  forall (pre mid post : list (string * Func)) x y h h' w r,
    AddAll (pre ++ x :: mid ++ y :: post) NewRegexpHandler = (Returned tt, h) ->
    AddAll (pre ++ x :: mid ++ post) NewRegexpHandler = (Returned tt, h') ->
    (pattern_matches (fst y) (path r) = true ->
     pattern_matches (fst x) (path r) = true) ->
    snd (ServeHTTP w r h) = snd (ServeHTTP w r h').
Proof.
  intros pre mid post [ex fx] [ey fy] h h' w r HA HA' Sh.
  apply AddAll_routes in HA. apply AddAll_routes in HA'.
  apply Forall2_app_inv_r in HA. destruct HA as [a [b [Fa [Fb Ta]]]].
  apply Forall2_app_inv_r in HA'. destruct HA' as [a' [b' [Fa' [Fb' Ta']]]].
  inversion Fb as [|rx ? b1 ? Bx Fb1]; subst.
  apply Forall2_app_inv_r in Fb1. destruct Fb1 as [m [c [Fm [Fc Tb]]]].
  inversion Fc as [|ry ? c1 ? By Fc1]; subst.
  inversion Fb' as [|rx' ? b1' ? Bx' Fb1']; subst.
  apply Forall2_app_inv_r in Fb1'. destruct Fb1' as [m' [c' [Fm' [Fc' Tb']]]].
  subst.
  rewrite (built_from_all_unique Fa' Fa), (built_from_unique Bx' Bx) in Ta'.
  rewrite (built_from_all_unique Fm' Fm), (built_from_all_unique Fc' Fc1) in Ta'.
  rewrite !ServeHTTP_calls_for. simpl. f_equal.
  unfold selected. rewrite Ta, Ta'. apply find_shadowed.
  rewrite (built_from_matches _ Bx), (built_from_matches _ By). exact Sh.
Qed.



End Composition.

(* ================================================================== *)
(** ** Patterns without operators: what the parser builds *)

Section StraightParse.

Import syntax derived.

Lemma list_ascii_of_string_app :
  forall s1 s2,
    list_ascii_of_string (s1 ++ s2)
    = list_ascii_of_string s1 ++ list_ascii_of_string s2.
Proof.
  induction s1 as [|c s1 IH]; intros s2; simpl; [reflexivity|].
  rewrite IH. reflexivity.
Qed.

Lemma operator_false :
  forall c,
    operator c = false ->
    isc c "\" = false /\ isc c "(" = false /\ isc c ")" = false
    /\ isc c "|" = false /\ isc c "*" = false /\ isc c "+" = false
    /\ isc c "?" = false /\ isc c "{" = false /\ isc c "[" = false
    /\ isc c "^" = false /\ isc c "$" = false.
Proof.
  unfold operator. intros c H.
  repeat (apply orb_false_elim in H; destruct H as [H ?]).
  repeat split; assumption.
Qed.

Lemma unescape_plain :
  forall cs t,
    forallb (fun c => negb (operator c)) cs = true ->
    unescape (cs ++ t)
    = match unescape t with
      | inl err => inl err
      | inr ss => inr (map Raw cs ++ ss)
      end.
Proof.
  induction cs as [|c cs IH]; intros t H; simpl in *.
  - destruct (unescape t); reflexivity.
  - apply andb_prop in H. destruct H as [Hc H].
    apply negb_true_iff in Hc. apply operator_false in Hc.
    destruct Hc as [B _]. rewrite B, (IH t H).
    destruct (unescape t); reflexivity.
Qed.

Lemma lex_plain_char :
  forall c t,
    operator c = false ->
    lex Outside (Raw c :: t) = emit (TAtom (atom_of c)) (lex Outside t).
Proof.
  intros c t H. apply operator_false in H.
  destruct H as [_ [H1 [H2 [H3 [H4 [H5 [H6 [H7 [H8 [H9 H10]]]]]]]]]].
  simpl. rewrite H1, H2, H3, H4, H5, H6, H7, H8, H9, H10. simpl.
  unfold atom_of. destruct (isc c "."); reflexivity.
Qed.

Lemma lex_plain :
  forall cs t,
    forallb (fun c => negb (operator c)) cs = true ->
    lex Outside (map Raw cs ++ t)
    = match lex Outside t with
      | inl err => inl err
      | inr ts => inr (map (fun c => TAtom (atom_of c)) cs ++ ts)
      end.
Proof.
  induction cs as [|c cs IH]; intros t H.
  - simpl. destruct (lex Outside t); reflexivity.
  - simpl in H. apply andb_prop in H. destruct H as [Hc H].
    apply negb_true_iff in Hc.
    change (map Raw (c :: cs) ++ t) with (Raw c :: (map Raw cs ++ t)).
    rewrite (lex_plain_char c (map Raw cs ++ t) Hc), (IH t H).
    destruct (lex Outside t); reflexivity.
Qed.

Lemma concat_above_nodes :
  forall l st acc,
    concat_above (map INode l ++ st) acc
    = concat_above st (fold_left join l acc).
Proof.
  induction l as [|re l IH]; intros st acc; simpl; [reflexivity|].
  apply IH.
Qed.

Lemma join_straight :
  forall ats,
    fold_right (fun re acc => join acc re) None (map leaf ats)
    = match ats with
      | [] => None
      | _ :: _ => Some (straight ats)
      end.
Proof.
  induction ats as [|a ats IH]; [reflexivity|].
  simpl map. simpl fold_right. rewrite IH.
  destruct ats; reflexivity.
Qed.

Lemma parse_tokens_atoms :
  forall ats st ncap lastRepeat,
    parse_tokens (map TAtom ats) st ncap lastRepeat
    = parse_tokens [] (map INode (rev (map leaf ats)) ++ st) ncap false.
Proof.
  induction ats as [|a ats IH]; intros st ncap lr; simpl.
  - destruct (collapse st) as [re st']. reflexivity.
  - rewrite IH. rewrite map_app, <- app_assoc. reflexivity.
Qed.

(** A sequence of atoms parses to the tree [straight]. *)
Lemma parse_tokens_straight :
  forall ats,
    ats <> [] ->
    parse_tokens (map TAtom ats) [] 0 false = inr (straight ats).
Proof.
  intros ats NE. rewrite parse_tokens_atoms, app_nil_r. simpl.
  unfold collapse.
  rewrite <- (app_nil_r (map INode (rev (map leaf ats)))).
  rewrite concat_above_nodes. simpl.
  rewrite <- fold_left_rev_right, rev_involutive, join_straight.
  destruct ats; [contradiction|reflexivity].
Qed.

Lemma MaxCap_straight : forall ats, MaxCap (straight ats) = 0.
Proof.
  induction ats as [|a ats IH]; [reflexivity|].
  destruct ats as [|b ats]; [destruct a; reflexivity|].
  change (MaxCap (straight (a :: b :: ats)))
    with (Nat.max (MaxCap (leaf a)) (MaxCap (straight (b :: ats)))).
  rewrite IH. destruct a; reflexivity.
Qed.

End StraightParse.

(* ================================================================== *)
(** ** Patterns without operators: how the matcher walks them *)

Section StraightMatch.

Import syntax regexp derived.

Lemma seen_in :
  forall i b pos v, seen (i, b) pos v = true -> In ((i, b), pos) v.
Proof.
  intros i b pos v E. unfold seen in E.
  apply existsb_exists in E. destruct E as [[[i' b'] q] [I H]]. simpl in H.
  apply andb_prop in H. destruct H as [H Hq].
  apply andb_prop in H. destruct H as [Hi Hb].
  apply Nat.eqb_eq in Hi. apply Nat.eqb_eq in Hq.
  apply Bool.eqb_prop in Hb. subst. exact I.
Qed.

Lemma seen_clear :
  forall id pos v b, clear id pos v -> seen (id, b) pos v = false.
Proof.
  intros id pos v b C.
  destruct (seen (id, b) pos v) eqn:E; [|reflexivity].
  apply seen_in in E. exfalso. apply (C 0 b pos).
  - rewrite Nat.add_0_r. exact E.
  - simpl. rewrite Nat.add_0_r. reflexivity.
Qed.

Lemma visit_seen :
  forall pt pos v go, seen pt pos v = true -> visit pt pos v go = (None, v).
Proof. intros pt pos v go H. unfold visit. rewrite H. reflexivity. Qed.

Lemma visit_unseen :
  forall pt pos v go,
    seen pt pos v = false -> visit pt pos v go = go ((pt, pos) :: v).
Proof. intros pt pos v go H. unfold visit. rewrite H. reflexivity. Qed.

Lemma run_concat :
  forall a b id pos rest c k v,
    run (OpConcat a b) id pos rest c k v
    = visit (id, false) pos v
        (run a (S id) pos rest c
           (fun pos' rest' c' => run b (S id + size a) pos' rest' c' k)).
Proof. reflexivity. Qed.

Lemma run_leaf :
  forall a id pos rest c k v,
    run (leaf a) id pos rest c k v
    = visit (id, false) pos v
        (fun v' =>
           match accepts a pos rest with
           | Some (pos', rest') => k pos' rest' c v'
           | None => fail v'
           end).
Proof.
  intros a id pos rest c k v.
  destruct a; simpl; apply visit_ext; intros v'.
  - destruct rest as [|y rest']; [reflexivity|].
    destruct (Ascii.eqb c0 y); reflexivity.
  - destruct rest as [|y rest']; [reflexivity|].
    destruct (in_class y cl); reflexivity.
  - destruct rest as [|y rest']; [reflexivity|].
    destruct (Ascii.eqb y "010"); reflexivity.
  - destruct (pos =? 0); reflexivity.
  - destruct rest; reflexivity.
Qed.

Lemma accepts_consuming :
  forall a pos rest pos' rest',
    consuming a = true ->
    accepts a pos rest = Some (pos', rest') ->
    pos' = S pos /\ length rest = S (length rest').
Proof.
  intros a pos rest pos' rest' Ca H.
  destruct a; try discriminate; simpl in H;
    destruct rest as [|y t]; try discriminate.
  - destruct (Ascii.eqb c y); inversion H; subst; split; reflexivity.
  - destruct (in_class y cl); inversion H; subst; split; reflexivity.
  - destruct (Ascii.eqb y "010"); inversion H; subst; split; reflexivity.
Qed.

Lemma half_succ_succ : forall j, (S (S j)) / 2 = S (j / 2).
Proof.
  intros j. change (S (S j)) with (2 + j).
  replace (2 + j) with (j + 1 * 2) by lia.
  rewrite Nat.div_add by lia. lia.
Qed.

Lemma added_refl : forall id sz pos v, added id sz pos v v.
Proof. intros id sz pos v e I. left. exact I. Qed.

Lemma added_first :
  forall id sz pos v, 0 < sz -> added id sz pos v (((id, false), pos) :: v).
Proof.
  intros id sz pos v Hsz e [<-|I]; [right|left; exact I].
  exists 0, false. split; [exact Hsz|].
  rewrite Nat.add_0_r. simpl. rewrite Nat.add_0_r. reflexivity.
Qed.

Lemma added_second :
  forall id sz pos v,
    1 < sz ->
    added id sz pos v (((S id, false), pos) :: ((id, false), pos) :: v).
Proof.
  intros id sz pos v Hsz e [<-|I].
  - right. exists 1, false. split; [exact Hsz|].
    simpl. rewrite Nat.add_0_r. f_equal. f_equal. lia.
  - apply added_first; [lia|exact I].
Qed.

(** The walk of a sequence of atoms, all consuming but possibly the
    last.  It either fails or hands on to [k] where the atoms end; on
    ground that is [clear] it fails only if the atoms do not accept. *)
Lemma run_straight :
  forall ats id pos rest c k v,
    ats <> [] ->
    forallb consuming (removelast ats) = true ->
    exists v',
      added id (2 * length ats - 1) pos v v'
      /\ ((run (straight ats) id pos rest c k v = (None, v')
           /\ (clear id pos v -> accepts_all ats pos rest = None))
          \/ exists pos' rest',
              accepts_all ats pos rest = Some (pos', rest')
              /\ run (straight ats) id pos rest c k v = k pos' rest' c v').
Proof.
  induction ats as [|a ats IH]; intros id pos rest c k v NE Co;
    [contradiction|].
  destruct ats as [|b ats].
  - (* a single atom *)
    clear IH. change (straight [a]) with (leaf a).
    rewrite run_leaf.
    destruct (seen (id, false) pos v) eqn:Sn.
    + rewrite (visit_seen _ _ _ _ Sn).
      exists v. split; [apply added_refl|]. left.
      split; [reflexivity|].
      intros C. rewrite (seen_clear false C) in Sn. discriminate.
    + rewrite (visit_unseen _ _ _ _ Sn).
      exists (((id, false), pos) :: v). split.
      * apply added_first. simpl. lia.
      * simpl accepts_all.
        destruct (accepts a pos rest) as [[p t]|].
        -- right. exists p, t. split; reflexivity.
        -- left. split; reflexivity.
  - (* an atom and more *)
    change (straight (a :: b :: ats))
      with (OpConcat (leaf a) (straight (b :: ats))).
    assert (Ca : consuming a = true /\
                 forallb consuming (removelast (b :: ats)) = true).
    { change (removelast (a :: b :: ats))
        with (a :: removelast (b :: ats)) in Co.
      simpl in Co. apply andb_prop in Co. exact Co. }
    destruct Ca as [Ca Co'].
    assert (Len : 2 * length (a :: b :: ats) - 1
                  = S (S (2 * length (b :: ats) - 1)))
      by (simpl; lia).
    rewrite Len, run_concat.
    destruct (seen (id, false) pos v) eqn:Sn.
    + rewrite (visit_seen _ _ _ _ Sn).
      exists v. split; [apply added_refl|]. left.
      split; [reflexivity|].
      intros C. rewrite (seen_clear false C) in Sn. discriminate.
    + rewrite (visit_unseen _ _ _ _ Sn), run_leaf.
      set (v1 := ((id, false), pos) :: v).
      destruct (seen (S id, false) pos v1) eqn:Sn1.
      * rewrite (visit_seen _ _ _ _ Sn1).
        exists v1. split; [apply added_first; lia|]. left.
        split; [reflexivity|].
        intros C. exfalso. apply seen_in in Sn1.
        destruct Sn1 as [E|I]; [inversion E; lia|].
        replace (S id) with (id + 1) in I by lia.
        apply C in I. apply I. simpl. lia.
      * rewrite (visit_unseen _ _ _ _ Sn1).
        set (v2 := ((S id, false), pos) :: v1).
        change (accepts_all (a :: b :: ats) pos rest)
          with (match accepts a pos rest with
                | Some (pos', rest') => accepts_all (b :: ats) pos' rest'
                | None => None
                end).
        destruct (accepts a pos rest) as [[p t]|] eqn:Ea.
        -- destruct (accepts_consuming _ _ _ Ca Ea) as [-> _].
           replace (S id + size (leaf a)) with (S (S id))
             by (destruct a; simpl; lia).
           destruct (IH (S (S id)) (S pos) t c k v2)
             as [v' [Ad R]]; [discriminate|exact Co'|].
           exists v'. split.
           ++ intros e I. apply Ad in I. destruct I as [I|[j [b' [Hj ->]]]].
              ** apply (added_second (sz := S (S (2 * length (b :: ats) - 1))));
                   [lia|exact I].
              ** right. exists (S (S j)), b'. split; [lia|].
                 rewrite half_succ_succ. f_equal; [f_equal|]; lia.
           ++ destruct R as [[R N]|[p' [t' [A R]]]].
              ** left. split; [exact R|]. intros C. apply N.
                 intros j b' q [E|[E|I]].
                 --- inversion E; lia.
                 --- inversion E; lia.
                 --- replace (S (S id) + j) with (id + S (S j)) in I by lia.
                     apply C in I. rewrite half_succ_succ in I. lia.
              ** right. exists p', t'. split; [exact A|exact R].
        -- exists v2. split; [apply added_second; lia|].
           left. split; reflexivity.
Qed.

(** Away from the start of the text an expression that begins with [^]
    finds nothing, whatever was visited before. *)
Lemma run_begin_fail :
  forall t id pos rest c k v,
    pos <> 0 ->
    exists v', run (OpConcat OpBeginText t) id pos rest c k v = (None, v').
Proof.
  intros t id pos rest c k v P. rewrite run_concat.
  destruct (seen (id, false) pos v) eqn:Sn.
  - rewrite (visit_seen _ _ _ _ Sn). eauto.
  - rewrite (visit_unseen _ _ _ _ Sn). simpl.
    destruct (seen (S id, false) pos (((id, false), pos) :: v)) eqn:Sn1.
    + rewrite (visit_seen _ _ _ _ Sn1). eauto.
    + rewrite (visit_unseen _ _ _ _ Sn1).
      apply Nat.eqb_neq in P. rewrite P. unfold fail. eauto.
Qed.

Lemma search_eq :
  forall re ncap pos rest v,
    search re ncap pos rest v
    = match run re 0 pos rest (repeat None ncap)
              (fun pos' _ c v' => (Some (set_cap 0 (pos, pos') c), v')) v with
      | (Some c, _) => Some c
      | (None, v') =>
          match rest with
          | [] => None
          | _ :: rest' => search re ncap (S pos) rest' v'
          end
      end.
Proof. intros re ncap pos [|y rest] v; reflexivity. Qed.

Lemma search_begin_fail :
  forall t ncap rest pos v,
    pos <> 0 -> search (OpConcat OpBeginText t) ncap pos rest v = None.
Proof.
  intros t ncap. induction rest as [|y rest IH]; intros pos v P;
    rewrite search_eq;
    match goal with
    | |- context [run _ _ _ ?d ?e ?f ?g] =>
        destruct (run_begin_fail t 0 d e f g P) as [v' R]
    end;
    rewrite R; [reflexivity|].
  apply IH. lia.
Qed.

(** The search with an expression [^] followed by a sequence of atoms:
    it finds a match exactly when the atoms accept the text from its
    first character. *)
Lemma search_anchored_straight :
  forall ats ncap rest,
    ats <> [] ->
    forallb consuming (removelast ats) = true ->
    search (OpConcat OpBeginText (straight ats)) ncap 0 rest []
    = match accepts_all ats 0 rest with
      | Some (pos', _) => Some (set_cap 0 (0, pos') (repeat None ncap))
      | None => None
      end.
Proof.
  intros ats ncap rest NE Co. rewrite search_eq.
  set (kf := fun (pos' : nat) (_ : list ascii) (c : caps) (v' : visited) =>
               (Some (set_cap 0 (0, pos') c), v')).
  assert (R0 : run (OpConcat OpBeginText (straight ats)) 0 0 rest
                 (repeat None ncap) kf []
               = run (straight ats) 2 0 rest (repeat None ncap) kf
                   [((1, false), 0); ((0, false), 0)]) by reflexivity.
  assert (C : clear 2 0 [((1, false), 0); ((0, false), 0)]).
  { intros j b q [E|[E|[]]]; inversion E; lia. }
  rewrite R0.
  destruct (run_straight 2 0 rest (repeat None ncap) kf
              [((1, false), 0); ((0, false), 0)] NE Co)
    as [v' [_ [[R N]|[p [t [A R]]]]]].
  - rewrite (N C), R. destruct rest as [|y rest]; [reflexivity|].
    apply search_begin_fail. lia.
  - rewrite A, R. reflexivity.
Qed.

End StraightMatch.

(* ================================================================== *)
(** ** Routes registered with a pattern without operators *)

Section StraightRoutes.

Import Go syntax regexp handler derived.

Lemma unescape_caret :
  forall t,
    unescape ("^"%char :: t)
    = match unescape t with
      | inl err => inl err
      | inr ss => inr (Raw "^" :: ss)
      end.
Proof. reflexivity. Qed.

Lemma lex_caret :
  forall t, lex Outside (Raw "^" :: t) = emit (TAtom BeginText) (lex Outside t).
Proof. reflexivity. Qed.

(** What [MustCompile] makes of [^], characters that are no operators,
    and a tail that lexes to atoms. *)
Lemma MustCompile_straight :
  forall str cs tl ss tats,
    list_ascii_of_string str = "^"%char :: cs ++ tl ->
    forallb (fun c => negb (operator c)) cs = true ->
    unescape tl = inr ss ->
    lex Outside ss = inr (map TAtom tats) ->
    tats <> [] ->
    MustCompile str
    = Returned {| expr := str;
                  prog := OpConcat OpBeginText (straight (map atom_of cs ++ tats));
                  numSubexp := 0 |}.
Proof.
  intros str cs tl ss tats L P U X NE.
  unfold MustCompile, Compile, Parse.
  rewrite L, unescape_caret, (unescape_plain _ tl P), U.
  rewrite lex_caret, (lex_plain _ ss P), X. simpl emit.
  change (TAtom BeginText :: map (fun c => TAtom (atom_of c)) cs ++ map TAtom tats)
    with (map TAtom (BeginText :: nil) ++
          (map (fun c => TAtom (atom_of c)) cs ++ map TAtom tats)).
  rewrite <- (map_map atom_of TAtom), <- !map_app.
  rewrite parse_tokens_straight by discriminate.
  rewrite MaxCap_straight.
  assert (N : map atom_of cs ++ tats <> []).
  { intros E. apply app_eq_nil in E. destruct E as [_ E]. exact (NE E). }
  simpl app.
  destruct (map atom_of cs ++ tats) as [|a l]; [contradiction|].
  reflexivity.
Qed.

Lemma consuming_atoms :
  forall cs t,
    forallb consuming (removelast (map atom_of cs ++ [t])) = true.
Proof.
  intros cs t. rewrite removelast_last.
  induction cs as [|c cs IH]; [reflexivity|].
  simpl. rewrite IH. unfold atom_of. destruct (isc c "."); reflexivity.
Qed.

(** A route whose pattern compiles to [^] and a sequence of atoms matches
    a path exactly when the atoms accept it from its first character. *)
Lemma pattern_matches_straight :
  forall e s cs tl ss t,
    list_ascii_of_string ("^" ++ e ++ "$") = "^"%char :: cs ++ tl ->
    forallb (fun c => negb (operator c)) cs = true ->
    unescape tl = inr ss ->
    lex Outside ss = inr [TAtom t] ->
    pattern_matches e s
    = match accepts_all (map atom_of cs ++ [t]) 0 (list_ascii_of_string s) with
      | Some _ => true
      | None => false
      end.
Proof.
  intros e s cs tl ss t L P U X.
  unfold pattern_matches.
  rewrite (MustCompile_straight _ cs tl (tats := [t]) L P U X)
    by discriminate.
  unfold FindStringSubmatch, doExecute. simpl prog. simpl numSubexp.
  rewrite search_anchored_straight.
  - destruct (accepts_all _ 0 _) as [[p r]|]; reflexivity.
  - intros E. apply app_eq_nil in E. destruct E as [_ E]. discriminate.
  - apply consuming_atoms.
Qed.

Lemma accepts_agrees :
  forall cs pos s,
    match accepts_all (map atom_of cs ++ [EndText]) pos s with
    | Some _ => true
    | None => false
    end = agrees cs s.
Proof.
  induction cs as [|c cs IH]; intros pos s.
  - destruct s; reflexivity.
  - simpl. unfold atom_of at 1.
    destruct (isc c ".") eqn:D; simpl.
    + destruct s as [|y s]; [reflexivity|].
      unfold isc, newline. destruct (Ascii.eqb y "010"); simpl;
        [reflexivity|apply IH].
    + destruct s as [|y s]; [reflexivity|].
      unfold isc. destruct (Ascii.eqb c y); simpl; [apply IH|reflexivity].
Qed.

Lemma anchored_chars :
  forall e,
    list_ascii_of_string ("^" ++ e ++ "$")
    = "^"%char :: list_ascii_of_string e ++ ["$"%char].
Proof.
  intros e. simpl. rewrite list_ascii_of_string_app. reflexivity.
Qed.

Lemma operator_free_matches :
  forall e s,
    operator_free e = true ->
    pattern_matches e s
    = agrees (list_ascii_of_string e) (list_ascii_of_string s).
Proof.
  intros e s P.
  rewrite (pattern_matches_straight e s (list_ascii_of_string e)
             ["$"%char] (ss := [Raw "$"]) (t := EndText)
             (anchored_chars e) P eq_refl eq_refl).
  apply accepts_agrees.
Qed.

Lemma literal_operator_free :
  forall e, literal e = true -> operator_free e = true.
Proof.
  unfold literal, operator_free. intros e H.
  rewrite forallb_forall in *. intros c I. apply H in I.
  apply andb_prop in I. apply I.
Qed.

Lemma agrees_literal :
  forall cs s,
    forallb (fun c => negb (operator c) && negb (isc c ".")) cs = true ->
    agrees cs s = true <-> s = cs.
Proof.
  induction cs as [|c cs IH]; intros s L.
  - destruct s; simpl; split; intros H; try reflexivity; discriminate.
  - simpl in L. apply andb_prop in L. destruct L as [Lc L].
    apply andb_prop in Lc. destruct Lc as [_ D].
    apply negb_true_iff in D.
    destruct s as [|y s]; simpl; [split; discriminate|].
    rewrite D. unfold isc. split.
    + intros H. apply andb_prop in H. destruct H as [E A].
      apply Ascii.eqb_eq in E. apply (IH s L) in A. congruence.
    + intros H. inversion H; subst. rewrite Ascii.eqb_refl. simpl.
      apply (IH cs L). reflexivity.
Qed.

Lemma list_ascii_inj :
  forall s1 s2, list_ascii_of_string s1 = list_ascii_of_string s2 -> s1 = s2.
Proof.
  intros s1 s2 H.
  rewrite <- (string_of_list_ascii_of_string s1),
          <- (string_of_list_ascii_of_string s2), H.
  reflexivity.
Qed.



End StraightRoutes.

(* ================================================================== *)
(** ** A pattern that ends in a backslash *)

Section TrailingBackslash.

Import Go syntax regexp handler derived.

Lemma accepts_then_char :
  forall d cs pos s,
    forallb (fun c => negb (operator c) && negb (isc c ".")) cs = true ->
    match accepts_all (map atom_of cs ++ [Lit d]) pos s with
    | Some _ => true
    | None => false
    end = true
    <-> exists t, s = cs ++ d :: t.
Proof.
  intros d. induction cs as [|c cs IH]; intros pos s L.
  - simpl. destruct s as [|y s].
    + split; [discriminate|]. intros [t E]. discriminate.
    + destruct (Ascii.eqb d y) eqn:E.
      * apply Ascii.eqb_eq in E. subst. split; [|reflexivity].
        intros _. exists s. reflexivity.
      * split; [discriminate|]. intros [t H]. inversion H; subst.
        rewrite Ascii.eqb_refl in E. discriminate.
  - simpl in L. apply andb_prop in L. destruct L as [Lc L].
    apply andb_prop in Lc. destruct Lc as [_ D].
    apply negb_true_iff in D.
    simpl. unfold atom_of at 1. rewrite D. simpl.
    destruct s as [|y s].
    + split; [discriminate|]. intros [t H]. discriminate.
    + destruct (Ascii.eqb c y) eqn:E.
      * apply Ascii.eqb_eq in E. subst. rewrite (IH (S pos) s L). split.
        -- intros [t ->]. exists t. reflexivity.
        -- intros [t H]. inversion H. exists t. reflexivity.
      * split; [discriminate|]. intros [t H]. inversion H; subst.
        rewrite Ascii.eqb_refl in E. discriminate.
Qed.

Lemma backslash_anchored_chars :
  forall e,
    list_ascii_of_string ("^" ++ (e ++ "\") ++ "$")
    = "^"%char :: list_ascii_of_string e ++ ["\"%char; "$"%char].
Proof.
  intros e. rewrite anchored_chars, list_ascii_of_string_app, <- app_assoc.
  reflexivity.
Qed.


End TrailingBackslash.

(* ================================================================== *)
(** ** The catch-all pattern *)

Section CatchAll.

Import Go syntax regexp handler derived.

Lemma loop_eq :
  forall step lp greedy fuel k pos rest c v,
    loop step lp greedy fuel k pos rest c v
    = visit lp pos v
        (prefer greedy
           (step pos rest c
              (fun pos' rest' c' v' =>
                 match fuel with
                 | 0 => fail v'
                 | S fuel' =>
                     if length rest' <? length rest
                     then loop step lp greedy fuel' k pos' rest' c' v'
                     else fail v'
                 end))
           (k pos rest c)).
Proof. intros step lp greedy [|fuel] k pos rest c v; reflexivity. Qed.

Lemma run_any :
  forall id pos rest c k v,
    run OpAnyCharNotNL id pos rest c k v
    = visit (id, false) pos v
        (fun v' =>
           match rest with
           | y :: rest' =>
               if Ascii.eqb y "010" then fail v' else k (S pos) rest' c v'
           | [] => fail v'
           end).
Proof.
  intros id pos rest c k v. simpl. apply visit_ext. intros v'.
  destruct rest as [|y rest']; [reflexivity|].
  destruct (Ascii.eqb y "010"); reflexivity.
Qed.

Lemma run_end :
  forall id pos rest c k v,
    run OpEndText id pos rest c k v
    = visit (id, false) pos v
        (fun v' =>
           match rest with
           | [] => k pos rest c v'
           | _ :: _ => fail v'
           end).
Proof.
  intros id pos rest c k v. simpl. apply visit_ext. intros v'.
  destruct rest; reflexivity.
Qed.

Lemma unseen_below :
  forall i b pos v,
    (forall b' q, In ((i, b'), q) v -> q < pos) ->
    seen (i, b) pos v = false.
Proof.
  intros i b pos v H.
  destruct (seen (i, b) pos v) eqn:E; [|reflexivity].
  apply seen_in in E. apply H in E. lia.
Qed.

(** On a text without newline the loop of [.*] runs to the end of the
    text and the match succeeds. *)
Lemma loop_any_succeeds :
  forall rest fuel pos c v,
    forallb (fun y => negb (isc y newline)) rest = true ->
    length rest <= fuel ->
    (forall i b q, In ((i, b), q) v -> 3 <= i -> q < pos) ->
    exists c' v',
      loop (run OpAnyCharNotNL 4) (3, true) true fuel (at_end 0) pos rest c v
      = (Some c', v').
Proof.
  induction rest as [|y rest IH]; intros fuel pos c v NL F Inv;
    rewrite loop_eq;
    rewrite visit_unseen
      by (apply unseen_below; intros b' q I; apply (Inv _ _ _ I); lia);
    unfold prefer, orelse; rewrite run_any;
    rewrite visit_unseen
      by (apply unseen_below; intros b' q [E|I];
          [inversion E|apply (Inv _ _ _ I); lia]).
  - unfold fail, at_end. rewrite run_end.
    rewrite visit_unseen.
    + eauto.
    + apply unseen_below. intros b' q [E|[E|I]]; try (inversion E; fail).
      apply (Inv _ _ _ I). lia.
  - simpl in NL. apply andb_prop in NL. destruct NL as [Ny NL].
    apply negb_true_iff in Ny. unfold isc, newline in Ny. rewrite Ny.
    destruct fuel as [|fuel]; [simpl in F; lia|].
    assert (L : (length rest <? length (y :: rest)) = true)
      by (apply Nat.ltb_lt; simpl; lia).
    rewrite L.
    destruct (IH fuel (S pos) c
                (((4, false), pos) :: ((3, true), pos) :: v) NL)
      as [c' [v' R]].
    + simpl in F. lia.
    + intros i b q [E|[E|I]] Hi.
      * inversion E; lia.
      * inversion E; lia.
      * specialize (Inv _ _ _ I Hi). lia.
    + cbv beta.
      match goal with
      | |- context [let (o, v1) := ?X in _] =>
          replace X with (Some c', v') by (symmetry; exact R)
      end.
      eauto.
Qed.

(** On a text with a newline the loop finds nothing, whatever was
    visited before. *)
Lemma loop_any_fails :
  forall rest fuel pos c v,
    forallb (fun y => negb (isc y newline)) rest = false ->
    exists v',
      loop (run OpAnyCharNotNL 4) (3, true) true fuel (at_end 0) pos rest c v
      = (None, v').
Proof.
  induction rest as [|y rest IH]; intros fuel pos c v NL; [discriminate|].
  rewrite loop_eq.
  destruct (seen (3, true) pos v) eqn:S1;
    [rewrite (visit_seen _ _ _ _ S1); eauto|].
  rewrite (visit_unseen _ _ _ _ S1). unfold prefer, orelse.
  (* one more round fails *)
  assert (More : forall k' v1,
             (forall c1 v2,
                 isc y newline = false ->
                 exists v3, k' (S pos) rest c1 v2 = (None, v3)) ->
             exists v3,
               run OpAnyCharNotNL 4 pos (y :: rest) c k' v1 = (None, v3)).
  { intros k' v1 Hk. rewrite run_any.
    destruct (seen (4, false) pos v1) eqn:S2;
      [rewrite (visit_seen _ _ _ _ S2); eauto|].
    rewrite (visit_unseen _ _ _ _ S2).
    destruct (Ascii.eqb y "010") eqn:Ey; [unfold fail; eauto|].
    apply Hk. exact Ey. }
  match goal with
  | |- context [run OpAnyCharNotNL 4 pos (y :: rest) c ?k' ?v1] =>
      destruct (More k' v1) as [v3 R]
  end.
  - intros c1 v2 Ny. destruct fuel as [|fuel]; [unfold fail; eauto|].
    destruct (length rest <? length (y :: rest)); [|unfold fail; eauto].
    apply IH. simpl in NL. rewrite Ny in NL. exact NL.
  - rewrite R. unfold at_end. rewrite run_end.
    destruct (seen (5, false) pos v3) eqn:S3;
      [rewrite (visit_seen _ _ _ _ S3); eauto|].
    rewrite (visit_unseen _ _ _ _ S3). unfold fail. eauto.
Qed.

Lemma run_star :
  forall greedy sub id pos rest c k v,
    run (OpStar greedy sub) id pos rest c k v
    = visit (id, false) pos v
        (prefer greedy
           (run sub (S id) pos rest c
              (fun pos' rest' =>
                 loop (run sub (S id)) (id, true) greedy (length rest') k
                   pos' rest'))
           (k pos rest c)).
Proof. reflexivity. Qed.

Lemma at_end_nonempty :
  forall start pos y rest c v,
    exists v', at_end start pos (y :: rest) c v = (None, v').
Proof.
  intros start pos y rest c v. unfold at_end. rewrite run_end.
  destruct (seen (5, false) pos v) eqn:Sn.
  - rewrite (visit_seen _ _ _ _ Sn). eauto.
  - rewrite (visit_unseen _ _ _ _ Sn). unfold fail. eauto.
Qed.

(** The walk of ["^.*$"] from the start of the text. *)
Lemma run_catch_all :
  forall rest c,
    let kf := fun (pos' : nat) (_ : list ascii) (c' : caps) (v' : visited) =>
                (Some (set_cap 0 (0, pos') c'), v') in
    if forallb (fun y => negb (isc y newline)) rest
    then exists c' v', run catch_all_tree 0 0 rest c kf [] = (Some c', v')
    else exists v', run catch_all_tree 0 0 rest c kf [] = (None, v').
Proof.
  intros rest c kf.
  set (v0 := [((2, false), 0); ((1, false), 0); ((0, false), 0)]).
  assert (R0 : run catch_all_tree 0 0 rest c kf []
               = run (OpStar true OpAnyCharNotNL) 3 0 rest c (at_end 0) v0)
    by reflexivity.
  rewrite R0, run_star. rewrite visit_unseen by reflexivity.
  unfold prefer, orelse. rewrite run_any. rewrite visit_unseen by reflexivity.
  destruct rest as [|y rest].
  - simpl. unfold at_end. rewrite run_end.
    rewrite visit_unseen by reflexivity. eauto.
  - simpl forallb. unfold isc at 1. unfold newline at 1.
    destruct (Ascii.eqb y "010") eqn:Ey; simpl negb; simpl andb.
    + unfold fail. cbv beta iota. apply at_end_nonempty.
    + destruct (forallb (fun y0 => negb (isc y0 newline)) rest) eqn:NL.
      * destruct (@loop_any_succeeds rest (length rest) 1 c
                    (((4, false), 0) :: ((3, false), 0) :: v0) NL (le_n _))
          as [c' [v' R]].
        -- intros i b q [E|[E|[E|[E|[E|[]]]]]] Hi; inversion E; lia.
        -- match goal with
           | |- context [let (o, v1) := ?X in _] =>
               replace X with (Some c', v') by (symmetry; exact R)
           end.
           eauto.
      * destruct (@loop_any_fails rest (length rest) 1 c
                    (((4, false), 0) :: ((3, false), 0) :: v0) NL)
          as [v' R].
        match goal with
        | |- context [let (o, v1) := ?X in _] =>
            replace X with (@None caps, v') by (symmetry; exact R)
        end.
        apply at_end_nonempty.
Qed.

Lemma search_catch_all :
  forall rest ncap,
    match search catch_all_tree ncap 0 rest [] with
    | Some _ => true
    | None => false
    end = forallb (fun y => negb (isc y newline)) rest.
Proof.
  intros rest ncap. rewrite search_eq.
  pose proof (run_catch_all rest (repeat None ncap)) as H. cbv zeta in H.
  destruct (forallb (fun y => negb (isc y newline)) rest).
  - destruct H as [c' [v' R]]. rewrite R. reflexivity.
  - destruct H as [v' R]. rewrite R.
    destruct rest as [|y rest]; [reflexivity|].
    unfold catch_all_tree. rewrite search_begin_fail by lia. reflexivity.
Qed.

Lemma pattern_matches_catch_all :
  forall s, pattern_matches ".*" s = newline_free s.
Proof.
  intros s. unfold pattern_matches, newline_free.
  change (MustCompile ("^" ++ ".*" ++ "$"))
    with (Returned {| expr := "^.*$"; prog := catch_all_tree; numSubexp := 0 |}).
  unfold FindStringSubmatch, doExecute. simpl prog. simpl numSubexp.
  rewrite <- (search_catch_all (list_ascii_of_string s) (1 + 0)).
  destruct (search catch_all_tree (1 + 0) 0 (list_ascii_of_string s) []);
    reflexivity.
Qed.

(** X11.  The catch-all route the package documentation suggests, [".*"],
    matches a path exactly when the path holds no newline character. *)
Theorem catch_all_matches_newline_free_paths :
  forall s, pattern_matches ".*" s = newline_free s.
Proof. exact pattern_matches_catch_all. Qed.

End CatchAll.

(* ================================================================== *)
(** ** An alternation at the top of the pattern *)

Section TopAlternation.

Import Go syntax regexp handler derived.

Lemma size_straight :
  forall ats, ats <> [] -> size (straight ats) = 2 * length ats - 1.
Proof.
  induction ats as [|a ats IH]; intros NE; [contradiction|].
  destruct ats as [|b ats]; [destruct a; reflexivity|].
  change (size (straight (a :: b :: ats)))
    with (S (size (leaf a) + size (straight (b :: ats)))).
  rewrite IH by discriminate. destruct a; simpl; lia.
Qed.

Lemma run_alternate :
  forall a b id pos rest c k v,
    run (OpAlternate a b) id pos rest c k v
    = visit (id, false) pos v
        (orelse (run a (S id) pos rest c k)
                (run b (S id + size a) pos rest c k)).
Proof. reflexivity. Qed.

Lemma run_begin :
  forall id pos rest c k v,
    run OpBeginText id pos rest c k v
    = visit (id, false) pos v
        (fun v' => if pos =? 0 then k pos rest c v' else fail v').
Proof.
  intros id pos rest c k v. simpl. apply visit_ext. intros v'.
  destruct (pos =? 0); reflexivity.
Qed.

(** The first branch, [^] and atoms, away from the start of the text. *)
Lemma run_first_branch_later :
  forall ats id pos rest c k v,
    pos <> 0 ->
    exists v',
      run (straight (BeginText :: ats)) id pos rest c k v = (None, v')
      /\ forall i b q,
          In ((i, b), q) v' ->
          In ((i, b), q) v
          \/ (id <= i < id + size (straight (BeginText :: ats)) /\ q = pos).
Proof.
  intros ats id pos rest c k v P. apply Nat.eqb_neq in P.
  destruct ats as [|a ats].
  - change (straight [BeginText]) with OpBeginText. rewrite run_begin.
    destruct (seen (id, false) pos v) eqn:Sn.
    + rewrite (visit_seen _ _ _ _ Sn). exists v. split; [reflexivity|auto].
    + rewrite (visit_unseen _ _ _ _ Sn), P. eexists. split; [reflexivity|].
      intros i b q [E|I]; [|auto]. inversion E; subst. right. simpl. lia.
  - change (straight (BeginText :: a :: ats))
      with (OpConcat OpBeginText (straight (a :: ats))).
    change (size (OpConcat OpBeginText (straight (a :: ats))))
      with (S (1 + size (straight (a :: ats)))).
    rewrite run_concat.
    destruct (seen (id, false) pos v) eqn:Sn.
    + rewrite (visit_seen _ _ _ _ Sn). exists v. split; [reflexivity|auto].
    + rewrite (visit_unseen _ _ _ _ Sn), run_begin.
      destruct (seen (S id, false) pos (((id, false), pos) :: v)) eqn:Sn1.
      * rewrite (visit_seen _ _ _ _ Sn1). eexists. split; [reflexivity|].
        intros i b q [E|I]; [|auto]. inversion E; subst. right. lia.
      * rewrite (visit_unseen _ _ _ _ Sn1), P. eexists.
        split; [reflexivity|].
        intros i b q [E|[E|I]]; [| |auto]; inversion E; subst; right; lia.
Qed.

Lemma forallb_removelast :
  forall (A : Type) (p : A -> bool) l,
    forallb p l = true -> forallb p (removelast l) = true.
Proof.
  intros A p. induction l as [|x l IH]; intros H; [reflexivity|].
  simpl in H. apply andb_prop in H. destruct H as [Hx H].
  destruct l as [|y l]; [reflexivity|].
  change (removelast (x :: y :: l)) with (x :: removelast (y :: l)).
  simpl. rewrite Hx. apply IH. exact H.
Qed.

(** The first branch at the start of the text, entered right after the
    alternation itself. *)
Lemma run_first_branch_start :
  forall ats rest c k,
    forallb consuming ats = true ->
    exists v',
      (forall i b q,
          In ((i, b), q) v' ->
          i < 1 + size (straight (BeginText :: ats)) /\ (i = 0 -> q = 0))
      /\ ((run (straight (BeginText :: ats)) 1 0 rest c k [((0, false), 0)]
           = (None, v')
           /\ accepts_all ats 0 rest = None)
          \/ exists pos' rest',
              accepts_all ats 0 rest = Some (pos', rest')
              /\ run (straight (BeginText :: ats)) 1 0 rest c k [((0, false), 0)]
                 = k pos' rest' c v').
Proof.
  intros ats rest c k Co.
  destruct ats as [|a ats].
  - exists [((1, false), 0); ((0, false), 0)]. split.
    + intros i b q [E|[E|[]]]; inversion E; simpl; split; lia.
    + right. exists 0, rest. split; reflexivity.
  - assert (R0 : run (straight (BeginText :: a :: ats)) 1 0 rest c k
                   [((0, false), 0)]
                 = run (straight (a :: ats)) 3 0 rest c k
                     [((2, false), 0); ((1, false), 0); ((0, false), 0)])
      by reflexivity.
    rewrite R0.
    destruct (run_straight 3 0 rest c k
                [((2, false), 0); ((1, false), 0); ((0, false), 0)]
                (ats := a :: ats))
      as [v' [Ad R]]; [discriminate|apply forallb_removelast; exact Co|].
    exists v'. split.
    + intros i b q I. apply Ad in I.
      change (straight (BeginText :: a :: ats))
        with (OpConcat OpBeginText (straight (a :: ats))).
      change (size (OpConcat OpBeginText (straight (a :: ats))))
        with (S (1 + size (straight (a :: ats)))).
      rewrite size_straight by discriminate.
      destruct I as [[E|[E|[E|[]]]]|[j [b' [Hj E]]]]; inversion E;
        simpl length in *; split; lia.
    + destruct R as [[R N]|R].
      * left. split; [exact R|]. apply N.
        intros j b q [E|[E|[E|[]]]]; inversion E; lia.
      * right. exact R.
Qed.

Section Search.

Variable ats1 ats2 : list atom.
Variable ncap : nat.
Hypothesis consuming1 : forallb consuming ats1 = true.
Hypothesis nonempty2 : ats2 <> [].
Hypothesis consuming2 : forallb consuming (removelast ats2) = true.

Let A := straight (BeginText :: ats1).
Let B := straight ats2.
Let idB := 1 + size A.

Lemma search_alternation_later :
  forall rest pos v,
    pos <> 0 ->
    alt_inv idB pos v ->
    match search (OpAlternate A B) ncap pos rest v with
    | Some _ => true
    | None => false
    end = suffix_accepts ats2 pos rest.
Proof.
  unfold idB, A, B.
  induction rest as [|y rest IH]; intros pos v P [I0 IB];
    rewrite search_eq, run_alternate;
    (rewrite visit_unseen by (apply unseen_below; exact I0));
    unfold orelse;
    match goal with
    | |- context [run (straight (BeginText :: ats1)) 1 pos ?r ?c ?k ?v1] =>
        destruct (run_first_branch_later ats1 1 r c k v1 P) as [v2 [RA NA]];
        rewrite RA; cbv beta iota;
        destruct (run_straight (1 + size (straight (BeginText :: ats1)))
                    pos r c k v2 nonempty2 consuming2)
          as [v3 [Ad [[RB N]|[p' [t' [Acc RB]]]]]];
        match goal with
        | |- context [run (straight ats2) ?i pos r c k v2] =>
            change (run (straight ats2) i pos r c k v2)
              with (run (straight ats2)
                      (1 + size (straight (BeginText :: ats1))) pos r c k v2);
            rewrite RB; cbv beta iota
        end
    end;
    try (simpl suffix_accepts; rewrite Acc; reflexivity);
    assert (C : clear (1 + size (straight (BeginText :: ats1))) pos v2)
      by (intros j b q I; apply NA in I; destruct I as [[E|I]|[Hi _]];
          [inversion E; lia|apply IB in I; lia|lia]);
    simpl suffix_accepts; rewrite (N C); [reflexivity|].
  apply IH; [lia|]. split.
  - intros b q I. apply Ad in I.
    destruct I as [I|[j [b' [_ E]]]]; [|inversion E; lia].
    apply NA in I.
    destruct I as [[E|I]|[Hi _]];
      [inversion E; lia|apply I0 in I; lia|lia].
  - intros j b q I. apply Ad in I.
    destruct I as [I|[j' [b' [_ E]]]].
    + apply NA in I.
      destruct I as [[E|I]|[Hi _]];
        [inversion E; lia|apply IB in I; lia|lia].
    + pose proof (f_equal (fun e => fst (fst e)) E) as E1.
      pose proof (f_equal snd E) as E2. cbn [fst snd] in E1, E2.
      assert (j = j') by lia. subst. lia.
Qed.

Lemma search_alternation :
  forall rest,
    match search (OpAlternate A B) ncap 0 rest [] with
    | Some _ => true
    | None => false
    end
    = match accepts_all ats1 0 rest with
      | Some _ => true
      | None => suffix_accepts ats2 0 rest
      end.
Proof.
  intros rest. rewrite search_eq. unfold A, B. rewrite run_alternate.
  rewrite visit_unseen by reflexivity. unfold orelse.
  match goal with
  | |- context [run (straight (BeginText :: ats1)) 1 0 rest ?c ?k ?v1] =>
      destruct (run_first_branch_start ats1 rest c k consuming1)
        as [v2 [Bd [[RA NA]|[p' [t' [Acc RA]]]]]];
      [replace (run (straight (BeginText :: ats1)) 1 0 rest c k v1)
         with (@None caps, v2) by (symmetry; exact RA)
      |replace (run (straight (BeginText :: ats1)) 1 0 rest c k v1)
         with (k p' t' c v2) by (symmetry; exact RA)];
      cbv beta iota
  end.
  - rewrite NA.
    match goal with
    | |- context [run (straight ats2) ?i 0 rest ?c ?k v2] =>
        destruct (run_straight (1 + size (straight (BeginText :: ats1)))
                    0 rest c k v2 nonempty2 consuming2)
          as [v3 [Ad [[RB N]|[q' [u' [Acc RB]]]]]];
        change (run (straight ats2) i 0 rest c k v2)
          with (run (straight ats2)
                  (1 + size (straight (BeginText :: ats1))) 0 rest c k v2);
        rewrite RB; cbv beta iota
    end.
    + assert (C : clear (1 + size (straight (BeginText :: ats1))) 0 v2).
      { intros j b q I. apply Bd in I. lia. }
      destruct rest as [|y rest].
      * simpl. rewrite (N C). reflexivity.
      * pose proof search_alternation_later as L. unfold idB, A, B in L.
        rewrite L.
        -- simpl. rewrite (N C). reflexivity.
        -- lia.
        -- split; [intros b q I|intros j b q I]; apply Ad in I;
             destruct I as [I|[j' [b' [_ E]]]];
             try (apply Bd in I; lia);
             pose proof (f_equal (fun e => fst (fst e)) E) as E1;
             pose proof (f_equal snd E) as E2; cbn [fst snd] in E1, E2;
             try lia.
           assert (j = j') by lia. subst. lia.
    + destruct rest; simpl; rewrite Acc; reflexivity.
  - rewrite Acc. reflexivity.
Qed.

End Search.

Lemma parse_tokens_atoms_then :
  forall ats ts st ncap,
    parse_tokens (map TAtom ats ++ ts) st ncap false
    = parse_tokens ts (map INode (rev (map leaf ats)) ++ st) ncap false.
Proof.
  induction ats as [|a ats IH]; intros ts st ncap; simpl; [reflexivity|].
  rewrite IH, map_app, <- app_assoc. reflexivity.
Qed.

Lemma concat_above_straight :
  forall ats st,
    ats <> [] ->
    match st with INode _ :: _ => False | _ => True end ->
    concat_above (map INode (rev (map leaf ats)) ++ st) None
    = (straight ats, st).
Proof.
  intros ats st NE M. rewrite concat_above_nodes.
  rewrite <- fold_left_rev_right, rev_involutive, join_straight.
  destruct ats as [|a ats]; [contradiction|].
  destruct st as [|[re|cap|] st]; try reflexivity. contradiction.
Qed.

Lemma parse_tokens_alternation :
  forall ats1 ats2,
    ats1 <> [] -> ats2 <> [] ->
    parse_tokens (map TAtom ats1 ++ TBar :: map TAtom ats2) [] 0 false
    = inr (OpAlternate (straight ats1) (straight ats2)).
Proof.
  intros ats1 ats2 N1 N2.
  rewrite parse_tokens_atoms_then. simpl parse_tokens.
  rewrite (@concat_above_straight ats1 [] N1 I).
  rewrite <- (app_nil_r (map TAtom ats2)), parse_tokens_atoms_then.
  simpl parse_tokens. unfold collapse.
  rewrite (@concat_above_straight ats2 [IVerticalBar; INode (straight ats1)]
             N2 I).
  reflexivity.
Qed.

Lemma unescape_bar :
  forall t,
    unescape ("|"%char :: t)
    = match unescape t with
      | inl err => inl err
      | inr ss => inr (Raw "|" :: ss)
      end.
Proof. reflexivity. Qed.

Lemma lex_bar :
  forall t, lex Outside (Raw "|" :: t) = emit TBar (lex Outside t).
Proof. reflexivity. Qed.

Lemma alternation_chars :
  forall e1 e2,
    list_ascii_of_string ("^" ++ (e1 ++ "|" ++ e2) ++ "$")
    = "^"%char :: list_ascii_of_string e1
        ++ "|"%char :: list_ascii_of_string e2 ++ ["$"%char].
Proof.
  intros e1 e2. rewrite anchored_chars, list_ascii_of_string_app.
  simpl. rewrite <- app_assoc. reflexivity.
Qed.

Lemma MustCompile_alternation :
  forall e1 e2,
    operator_free e1 = true ->
    operator_free e2 = true ->
    MustCompile ("^" ++ (e1 ++ "|" ++ e2) ++ "$")
    = Returned
        {| expr := "^" ++ (e1 ++ "|" ++ e2) ++ "$";
           prog := OpAlternate
                     (straight (BeginText :: map atom_of (list_ascii_of_string e1)))
                     (straight (map atom_of (list_ascii_of_string e2) ++ [EndText]));
           numSubexp := 0 |}.
Proof.
  intros e1 e2 P1 P2.
  unfold MustCompile, Compile, Parse.
  rewrite alternation_chars, unescape_caret.
  rewrite (unescape_plain _ _ P1), unescape_bar.
  rewrite (unescape_plain _ ["$"%char] P2).
  change (unescape ["$"%char]) with (@inr ErrorCode _ [Raw "$"]).
  cbv beta iota.
  rewrite lex_caret, (lex_plain _ _ P1), lex_bar.
  rewrite (lex_plain _ [Raw "$"] P2).
  change (lex Outside [Raw "$"]) with (@inr ErrorCode _ [TAtom EndText]).
  cbv beta iota. cbn [emit].
  set (cs1 := list_ascii_of_string e1). set (cs2 := list_ascii_of_string e2).
  replace (TAtom BeginText
             :: map (fun c => TAtom (atom_of c)) cs1
             ++ TBar :: map (fun c => TAtom (atom_of c)) cs2 ++ [TAtom EndText])
    with (map TAtom (BeginText :: map atom_of cs1)
            ++ TBar :: map TAtom (map atom_of cs2 ++ [EndText])).
  - rewrite parse_tokens_alternation.
    + f_equal. f_equal. cbn [MaxCap]. rewrite !MaxCap_straight. reflexivity.
    + discriminate.
    + intros E. apply app_eq_nil in E. destruct E as [_ E]. discriminate.
  - simpl. rewrite !map_map, map_app, map_map. reflexivity.
Qed.

Lemma pattern_matches_alternation :
  forall e1 e2 s,
    operator_free e1 = true ->
    operator_free e2 = true ->
    pattern_matches (e1 ++ "|" ++ e2) s
    = match accepts_all (map atom_of (list_ascii_of_string e1)) 0
              (list_ascii_of_string s) with
      | Some _ => true
      | None =>
          suffix_accepts (map atom_of (list_ascii_of_string e2) ++ [EndText]) 0
            (list_ascii_of_string s)
      end.
Proof.
  intros e1 e2 s P1 P2. unfold pattern_matches.
  rewrite (MustCompile_alternation _ _ P1 P2).
  unfold FindStringSubmatch, doExecute. simpl prog. simpl numSubexp.
  assert (C1 : forallb consuming (map atom_of (list_ascii_of_string e1)) = true).
  { clear. induction (list_ascii_of_string e1) as [|c cs IH]; [reflexivity|].
    simpl. rewrite IH. unfold atom_of. destruct (isc c "."); reflexivity. }
  assert (N2 : map atom_of (list_ascii_of_string e2) ++ [EndText] <> []).
  { intros E. apply app_eq_nil in E. destruct E as [_ E]. discriminate. }
  rewrite <- (@search_alternation _ _ (1 + 0) C1 N2
                (consuming_atoms (list_ascii_of_string e2) EndText)
                (list_ascii_of_string s)).
  destruct (search _ (1 + 0) 0 (list_ascii_of_string s) []); reflexivity.
Qed.

Lemma accepts_prefix :
  forall cs pos s,
    forallb (fun c => negb (operator c) && negb (isc c ".")) cs = true ->
    match accepts_all (map atom_of cs) pos s with
    | Some _ => true
    | None => false
    end = true
    <-> exists t, s = cs ++ t.
Proof.
  induction cs as [|c cs IH]; intros pos s L.
  - simpl. split; [intros _; exists s; reflexivity|reflexivity].
  - simpl in L. apply andb_prop in L. destruct L as [Lc L].
    apply andb_prop in Lc. destruct Lc as [_ D].
    apply negb_true_iff in D.
    simpl. unfold atom_of at 1. rewrite D. simpl.
    destruct s as [|y s].
    + split; [discriminate|]. intros [t H]. discriminate.
    + destruct (Ascii.eqb c y) eqn:E.
      * apply Ascii.eqb_eq in E. subst. rewrite (IH (S pos) s L). split.
        -- intros [t ->]. exists t. reflexivity.
        -- intros [t H]. inversion H. exists t. reflexivity.
      * split; [discriminate|]. intros [t H]. inversion H; subst.
        rewrite Ascii.eqb_refl in E. discriminate.
Qed.

Lemma suffix_accepts_literal :
  forall cs s pos,
    forallb (fun c => negb (operator c) && negb (isc c ".")) cs = true ->
    suffix_accepts (map atom_of cs ++ [EndText]) pos s = true
    <-> exists t, s = t ++ cs.
Proof.
  intros cs. induction s as [|y s IH]; intros pos L.
  - simpl suffix_accepts.
    pose proof (accepts_agrees cs pos []) as A.
    destruct (accepts_all (map atom_of cs ++ [EndText]) pos []) as [pt|].
    + symmetry in A. apply (agrees_literal cs [] L) in A.
      split; [intros _; exists []; exact A|reflexivity].
    + split; [discriminate|]. intros [t H].
      symmetry in H. apply app_eq_nil in H. destruct H as [_ H].
      symmetry in H. apply (agrees_literal cs [] L) in H. congruence.
  - simpl suffix_accepts.
    pose proof (accepts_agrees cs pos (y :: s)) as A.
    destruct (accepts_all (map atom_of cs ++ [EndText]) pos (y :: s)) as [pt|].
    + symmetry in A. apply (agrees_literal cs (y :: s) L) in A.
      split; [intros _; exists []; exact A|reflexivity].
    + rewrite (IH (S pos) L). split.
      * intros [t ->]. exists (y :: t). reflexivity.
      * intros [[|z t] H].
        -- simpl in H. apply (agrees_literal cs (y :: s) L) in H. congruence.
        -- inversion H. exists t. reflexivity.
Qed.


End TopAlternation.

(* ================================================================== *)
(** ** A table with a catch-all route *)

Section CatchAllRoute.

Import Go handler derived.

Variable ResponseWriter : Type.
Variable Func : Type.

Implicit Types (h : RegexpHandler Func) (w : ResponseWriter) (r : http.Request).

(** X12.  With [".*"] registered anywhere in the table, every request whose
    path holds no newline results in exactly one call: no such request
    falls through. *)
Theorem catch_all_route_leaves_no_request_unanswered :
  forall (regs : list (string * Func)) h w r function,
    AddAll regs NewRegexpHandler = (Returned tt, h) ->
    In (".*", function) regs ->
    newline_free (url.Path (http.URL r)) = true ->
    exists c, snd (ServeHTTP w r h) = [c].
Proof.
  intros regs h w r function HA HI NL.
  pose proof (AddAll_routes _ HA) as HF.
  apply In_nth_error in HI. destruct HI as [i Hi].
  destruct (Forall2_nth_right _ HF Hi) as [rt [Hrt B]].
  assert (M : route_matches rt (url.Path (http.URL r)) = true).
  { rewrite (built_from_matches _ B). simpl fst.
    rewrite pattern_matches_catch_all. exact NL. }
  destruct (selected h (url.Path (http.URL r))) as [rt'|] eqn:Sel.
  - destruct (ServeHTTP_selected h w r Sel) as [a [_ E]]. rewrite E.
    eexists. reflexivity.
  - unfold selected in Sel. apply nth_error_In in Hrt.
    rewrite (find_none _ _ Sel rt Hrt) in M. discriminate.
Qed.

End CatchAllRoute.

(* ================================================================== *)
(** ** The further statements at work on small tables *)

Section MoreInstances.

Import Go handler examples derived.

Lemma Add_extends_dispatch_witness :
  (snd (ServeHTTP tt (request "/a") (registered [("/a", "serveA")])) <> [] ->
   snd (ServeHTTP tt (request "/a") (registered [("/a", "serveA"); ("/(a)", "serveGroup")]))
   = snd (ServeHTTP tt (request "/a") (registered [("/a", "serveA")])))
  /\ (snd (ServeHTTP tt (request "/a") (registered [("/a", "serveA")])) = [] ->
      pattern_matches "/(a)" "/a" = false ->
      snd (ServeHTTP tt (request "/a")
             (registered [("/a", "serveA"); ("/(a)", "serveGroup")])) = [])
  /\ (snd (ServeHTTP tt (request "/a") (registered [("/a", "serveA")])) = [] ->
      pattern_matches "/(a)" "/a" = true ->
      exists args,
        snd (ServeHTTP tt (request "/a")
               (registered [("/a", "serveA"); ("/(a)", "serveGroup")]))
        = [{| callee := "serveGroup"; arg_w := tt; arg_r := request "/a";
              arg_matches := mk_slice args |}]).
Proof.
  apply (@Add_extends_dispatch unit string "/(a)" "serveGroup"
           (registered [("/a", "serveA")])
           (registered [("/a", "serveA"); ("/(a)", "serveGroup")])
           tt (request "/a")).
  vm_compute. reflexivity.
Defined.

Lemma every_call_is_to_the_first_match_witness :
  snd (ServeHTTP tt (request "/a") (registered three_routes))
  = [call_of tt (request "/a") (compiled_route "/a" "serveA") []]
  /\ arg_w (call_of tt (request "/a") (compiled_route "/a" "serveA") []) = tt
  /\ arg_r (call_of tt (request "/a") (compiled_route "/a" "serveA") [])
     = request "/a"
  /\ exists i expression,
      nth_error three_routes i
      = Some (expression,
              callee (call_of tt (request "/a") (compiled_route "/a" "serveA") []))
      /\ pattern_matches expression "/a" = true
      /\ forall j ej fj,
          j < i -> nth_error three_routes j = Some (ej, fj) ->
          pattern_matches ej "/a" = false.
Proof.
  apply (@every_call_is_to_the_first_match unit string three_routes
           (registered three_routes) tt (request "/a")
           (call_of tt (request "/a") (compiled_route "/a" "serveA") [])).
  - vm_compute. reflexivity.
  - vm_compute. left. reflexivity.
Defined.

Lemma order_matters_only_on_overlap_witness :
  snd (ServeHTTP tt (request "/b")
         (registered [("/a", "serveA"); ("/b", "serveB"); ("/.", "serveAny")]))
  = snd (ServeHTTP tt (request "/b")
           (registered [("/b", "serveB"); ("/a", "serveA"); ("/.", "serveAny")])).
Proof.
  apply (@order_matters_only_on_overlap unit string []
           [("/.", "serveAny")] ("/a", "serveA") ("/b", "serveB")
           (registered [("/a", "serveA"); ("/b", "serveB"); ("/.", "serveAny")])
           (registered [("/b", "serveB"); ("/a", "serveA"); ("/.", "serveAny")])
           tt (request "/b")).
  - vm_compute. reflexivity.
  - vm_compute. reflexivity.
  - vm_compute. reflexivity.
Defined.

Lemma shadowed_registration_is_dead_witness :
  snd (ServeHTTP tt (request "/x")
         (registered [("/.", "serveAny"); ("/a", "serveA"); ("/x", "serveX")]))
  = snd (ServeHTTP tt (request "/x")
           (registered [("/.", "serveAny"); ("/a", "serveA")])).
Proof.
  apply (@shadowed_registration_is_dead unit string []
           [("/a", "serveA")] [] ("/.", "serveAny") ("/x", "serveX")
           (registered [("/.", "serveAny"); ("/a", "serveA"); ("/x", "serveX")])
           (registered [("/.", "serveAny"); ("/a", "serveA")])
           tt (request "/x")).
  - vm_compute. reflexivity.
  - vm_compute. reflexivity.
  - intros _. vm_compute. reflexivity.
Defined.





Lemma catch_all_route_leaves_no_request_unanswered_witness :
  exists c,
    snd (ServeHTTP tt (request "/nowhere")
           (registered [("/a", "serveA"); (".*", "serveNotFound")]))
    = [c].
Proof.
  apply (@catch_all_route_leaves_no_request_unanswered unit string
           [("/a", "serveA"); (".*", "serveNotFound")]
           (registered [("/a", "serveA"); (".*", "serveNotFound")])
           tt (request "/nowhere") "serveNotFound").
  - vm_compute. reflexivity.
  - right. left. reflexivity.
  - vm_compute. reflexivity.
Defined.


(** What the model computes on these inputs. *)
Example leaks_computed :
  pattern_matches "foo|bar" "xbar" = true
  /\ pattern_matches "foo|bar" "foox" = true
  /\ pattern_matches "foo|bar" "xfoo" = false
  /\ pattern_matches "/favicon.ico" "/faviconXico" = true
  /\ pattern_matches "/a\" "/a$b" = true
  /\ pattern_matches "/a\" "/a" = false
  /\ pattern_matches ".*" "/nowhere" = true
  /\ pattern_matches ".*" (String "/" (String "010" "b")) = false.
Proof. repeat split; vm_compute; reflexivity. Qed.

End MoreInstances.
